(** * Elevation ruler: a shallow embedding of the ruler module

    The module patches the host's [Ruler] class.  It keeps, per ruler, an
    array of elevation increments (one per committed waypoint) and a pending
    increment for the destination, and replaces [Ruler.measure] by a version
    that measures every segment along a point projected by
    [ProjectElevatedPoint].

    Numbers.  JavaScript numbers are IEEE-754 doubles.  The functions below
    are written once, over an interface [Number] of the operations the source
    uses, and read at two instances:
    - [float64], the kernel's binary64 floats: the exact behaviour of the
      source, NaN, infinities and signed zeros included, and executable;
    - [xreal], exact real arithmetic extended with NaN and the infinities:
      rounding is ignored, which is what the geometric statements
      ("the distance equals sqrt(|AB|^2 + h^2)") are about.

    Elevation increments are integers in the source (they start at 0 and
    move by +1/-1); they are modelled as [Z], and the one addition made on
    them, the [+=] of [changeElevation], rounds its result to a double
    ([to_double]).

    The calls of [log] only write to the console and are left out. *)

From Stdlib Require Import ZArith List String Bool Lia.
From Stdlib Require Import PrimFloat.
From Stdlib Require Uint63.
From Stdlib Require Import Reals Lra.
From Stdlib Require Import Permutation.
From Stdlib Require FloatAxioms.
Import ListNotations.

Set Implicit Arguments.

(** ** Numbers *)

Class Number (N : Type) : Type := {
  of_Z : Z -> N;            (* an integer literal or an integer value *)
  NaN : N;                  (* ToNumber(undefined) *)
  add : N -> N -> N;        (* a + b *)
  sub : N -> N -> N;        (* a - b *)
  mul : N -> N -> N;        (* a * b *)
  div : N -> N -> N;        (* a / b *)
  hypot : N -> N -> N;      (* Math.hypot(a, b) *)
  ltb : N -> N -> bool;     (* a < b *)
  isNaN : N -> bool         (* Number.isNaN(a) *)
}.

Declare Scope js_scope.
Delimit Scope js_scope with js.
Infix "+" := add : js_scope.
Infix "-" := sub : js_scope.
Infix "*" := mul : js_scope.
Infix "/" := div : js_scope.
Infix "<?" := ltb : js_scope.

(** *** IEEE-754 binary64 *)

Definition float64 : Type := PrimFloat.float.

(** An integer as a double: exact below 2^53, which covers every integer of
    this development. *)
Definition float_of_Z (z : Z) : float64 :=
  match z with
  | Z0 => PrimFloat.zero
  | Zpos _ => PrimFloat.of_uint63 (Uint63.of_Z z)
  | Zneg p => PrimFloat.opp (PrimFloat.of_uint63 (Uint63.of_Z (Zpos p)))
  end.

(** [Math.hypot]: +Infinity when an argument is infinite, NaN when one is NaN,
    otherwise the square root of the sum of the squares.  ECMAScript leaves
    the result to the implementation: an engine that scales its arguments
    can differ from this in the last bit (on (1,5), say) and where a square
    overflows or underflows.  The statements on doubles below evaluate it
    where the two agree, or only compare its result with a threshold that is
    far from it. *)
Definition float_hypot (a b : float64) : float64 :=
  if (PrimFloat.is_infinity a || PrimFloat.is_infinity b)%bool then PrimFloat.infinity
  else PrimFloat.sqrt (PrimFloat.add (PrimFloat.mul a a) (PrimFloat.mul b b)).

#[export] Instance Number_float64 : Number float64 := {
  of_Z := float_of_Z;
  NaN := PrimFloat.nan;
  add := PrimFloat.add;
  sub := PrimFloat.sub;
  mul := PrimFloat.mul;
  div := PrimFloat.div;
  hypot := float_hypot;
  ltb := PrimFloat.ltb;
  isNaN := PrimFloat.is_nan
}.

(** *** Exact arithmetic with NaN and the infinities *)

Inductive xreal : Type :=
| Fin (r : R)
| PInf
| NInf
| XNaN.

Definition Rsign_inf (r : R) : xreal :=
  if Rlt_dec 0 r then PInf else if Rlt_dec r 0 then NInf else XNaN.

Definition xopp (a : xreal) : xreal :=
  match a with
  | Fin r => Fin (- r)
  | PInf => NInf
  | NInf => PInf
  | XNaN => XNaN
  end.

Definition xadd (a b : xreal) : xreal :=
  match a, b with
  | XNaN, _ | _, XNaN => XNaN
  | Fin r, Fin s => Fin (r + s)
  | PInf, NInf | NInf, PInf => XNaN
  | PInf, _ | _, PInf => PInf
  | NInf, _ | _, NInf => NInf
  end.

Definition xsub (a b : xreal) : xreal := xadd a (xopp b).

Definition xmul (a b : xreal) : xreal :=
  match a, b with
  | XNaN, _ | _, XNaN => XNaN
  | Fin r, Fin s => Fin (r * s)
  | Fin r, PInf | PInf, Fin r => Rsign_inf r
  | Fin r, NInf | NInf, Fin r => xopp (Rsign_inf r)
  | PInf, PInf | NInf, NInf => PInf
  | PInf, NInf | NInf, PInf => NInf
  end.

(** A zero divisor is read as +0: the only divisor of the source is a result
    of [Math.hypot], which is never -0. *)
Definition xdiv (a b : xreal) : xreal :=
  match a, b with
  | XNaN, _ | _, XNaN => XNaN
  | Fin r, Fin s => if Req_dec_T s 0 then Rsign_inf r else Fin (r / s)
  | Fin _, _ => Fin 0
  | _, Fin s => if Rlt_dec s 0 then xopp a else a
  | _, _ => XNaN
  end.

Definition xhypot (a b : xreal) : xreal :=
  match a, b with
  | PInf, _ | NInf, _ | _, PInf | _, NInf => PInf
  | XNaN, _ | _, XNaN => XNaN
  | Fin r, Fin s => Fin (sqrt (r * r + s * s))
  end.

Definition xltb (a b : xreal) : bool :=
  match a, b with
  | XNaN, _ | _, XNaN => false
  | Fin r, Fin s => if Rlt_dec r s then true else false
  | _, NInf | PInf, _ => false
  | NInf, _ | _, PInf => true
  end.

Definition xisNaN (a : xreal) : bool :=
  match a with XNaN => true | _ => false end.

#[export] Instance Number_xreal : Number xreal := {
  of_Z := fun z => Fin (IZR z);
  NaN := XNaN;
  add := xadd;
  sub := xsub;
  mul := xmul;
  div := xdiv;
  hypot := xhypot;
  ltb := xltb;
  isNaN := xisNaN
}.

(** ** Points and rays *)

Module PIXI.
(** [PIXI.Point]: a pair of coordinates. *)
Record Point (N : Type) : Type := mkPoint { x : N; y : N }.
Arguments mkPoint {N} _ _.
Arguments x {N} _.
Arguments y {N} _.
End PIXI.

Section Geometry.
Context {N : Type} `{Number N}.
Local Open Scope js_scope.

#[local] Abbreviation Point := (PIXI.Point N).

(** The host's [Ray]: built from its two end points, it stores them with
    their difference and its length. *)
Record Ray : Type := mkRay {
  ray_A : Point;
  ray_B : Point;
  ray_dx : N;
  ray_dy : N;
  ray_distance : N
}.

Definition newRay (A B : Point) : Ray :=
  let dx := PIXI.x B - PIXI.x A in
  let dy := PIXI.y B - PIXI.y A in
  {| ray_A := A; ray_B := B; ray_dx := dx; ray_dy := dy;
     ray_distance := hypot dx dy |}.

(** [Ray.project(t)]: the point at fraction [t] of the ray. *)
Definition Ray_project (r : Ray) (t : N) : Point :=
  PIXI.mkPoint (PIXI.x (ray_A r) + t * ray_dx r)
               (PIXI.y (ray_A r) + t * ray_dy r).

(** [ProjectElevatedPoint(A, B, height)] *)
Definition ProjectElevatedPoint (A B : Point) (height : N) : Point :=
  let dx := PIXI.x B - PIXI.x A in
  let dy := PIXI.y B - PIXI.y A in
  let distance := hypot dy dx in
  let projected_x := ((height * (PIXI.y B - PIXI.y A)) / distance) + PIXI.x B in
  let projected_y := ((height * (PIXI.x B - PIXI.x A)) / distance) + PIXI.y B in
  PIXI.mkPoint projected_x projected_y.

End Geometry.

Arguments Ray N : clear implicits.

(** ** Completions

    A call either returns or throws.  The two exceptions the module can raise
    by itself are a [ReferenceError] (reading an identifier that no scope
    binds) and a [TypeError] (a property access on [undefined]).  A call
    that throws is not followed further: the state it leaves is not
    modelled. *)

Inductive Exception : Type :=
| ReferenceError (name : string)
| TypeError (what : string).

Inductive Completion (T : Type) : Type :=
| Normal (v : T)
| Throw (e : Exception).
Arguments Normal {T} _.
Arguments Throw {T} _.

Definition bind {T U : Type} (c : Completion T) (k : T -> Completion U) : Completion U :=
  match c with
  | Normal v => k v
  | Throw e => Throw e
  end.

Notation "x <- c ;; k" := (bind c (fun x => k))
  (at level 61, c at next level, right associativity).
Notation "' p <- c ;; k" := (bind c (fun p => k))
  (at level 61, p pattern, c at next level, right associativity).

(** [for (const x of xs) body], threading the loop state. *)
Fixpoint forOf {T S : Type} (body : S -> T -> Completion S) (xs : list T) (s : S)
  : Completion S :=
  match xs with
  | [] => Normal s
  | x :: xs' => s' <- body s x ;; forOf body xs' s'
  end.

(** [xs.entries()] *)
Definition entries {T : Type} (xs : list T) : list (nat * T) :=
  combine (seq 0 (List.length xs)) xs.

(** [xs[i] = v] for an index in range. *)
Fixpoint set_nth {T : Type} (i : nat) (v : T) (xs : list T) : list T :=
  match xs, i with
  | [], _ => []
  | _ :: xs', O => v :: xs'
  | x :: xs', S i' => x :: set_nth i' v xs'
  end.

(** [xs.pop()]: drops the last element; an empty array stays empty. *)
Definition pop {T : Type} (xs : list T) : list T := removelast xs.

(** [xs.push(v)] *)
Definition push {T : Type} (xs : list T) (v : T) : list T := xs ++ [v].

(** The double nearest to an integer (ties to the even significand), as an
    integer: the integer itself up to 2^53, a multiple of a power of two
    beyond.  An integer-valued [a + b] on doubles is [to_double] of the exact
    sum, as long as it stays below 2^1024 (beyond it the code has [Infinity],
    a value the integers of this model do not have). *)
Definition to_double (z : Z) : Z :=
  let m := Z.abs z in
  if (m <? 2 ^ 53)%Z then z
  else
    let e := (Z.log2 m - 52)%Z in
    let q := (m / 2 ^ e)%Z in
    let r := (m mod 2 ^ e)%Z in
    let half := (2 ^ (e - 1))%Z in
    let q' := if (r <? half)%Z then q
              else if (half <? r)%Z then (q + 1)%Z
              else if Z.even q then q else (q + 1)%Z in
    (Z.sgn z * (q' * 2 ^ e))%Z.

(** ** The ruler and its host *)

Section Ruler.
Context {N : Type} `{Number N}.
Local Open Scope string_scope.
Local Open Scope js_scope.

#[local] Abbreviation Point := (PIXI.Point N).

(** A distance label of the ruler, one of [this.labels.children]. *)
Record Label : Type := mkLabel {
  label_text : option string;
  label_alpha : N;
  label_visible : bool;
  label_position : Point
}.

Definition set_label_visible (v : bool) (l : Label) : Label :=
  {| label_text := label_text l; label_alpha := label_alpha l;
     label_visible := v; label_position := label_position l |}.

(** What the ruler's [PIXI.Graphics] has been asked to draw. *)
Inductive DrawCmd : Type :=
| Line (width : Z) (from to : Point)
| Circle (center : Point) (radius : Z).

(** The [Ruler] object: the host's fields the module reads or writes, and the
    two fields the module adds, [elevation_increments] and
    [destination_elevation_increment].  [highlight] stands for the ruler's
    grid highlight layer, [canvas.grid.highlightLayers[this.name]]. *)
Record Ruler : Type := mkRuler {
  waypoints : list Point;
  destination : option Point;
  labels : list Label;
  active : bool;
  ruler : list DrawCmd;
  highlight : list (Ray N);
  elevation_increments : list Z;
  destination_elevation_increment : Z
}.

Definition set_elevation (incs : list Z) (d : Z) (this : Ruler) : Ruler :=
  {| waypoints := waypoints this; destination := destination this;
     labels := labels this; active := active this; ruler := ruler this;
     highlight := highlight this;
     elevation_increments := incs; destination_elevation_increment := d |}.

Definition set_destination (p : Point) (this : Ruler) : Ruler :=
  {| waypoints := waypoints this; destination := Some p;
     labels := labels this; active := active this; ruler := ruler this;
     highlight := highlight this;
     elevation_increments := elevation_increments this;
     destination_elevation_increment := destination_elevation_increment this |}.

Definition set_labels (ls : list Label) (this : Ruler) : Ruler :=
  {| waypoints := waypoints this; destination := destination this;
     labels := ls; active := active this; ruler := ruler this;
     highlight := highlight this;
     elevation_increments := elevation_increments this;
     destination_elevation_increment := destination_elevation_increment this |}.

Definition set_drawing (g : list DrawCmd) (h : list (Ray N)) (this : Ruler) : Ruler :=
  {| waypoints := waypoints this; destination := destination this;
     labels := labels this; active := active this; ruler := g;
     highlight := h;
     elevation_increments := elevation_increments this;
     destination_elevation_increment := destination_elevation_increment this |}.

(** A measured segment, [{ray, label}], to which the second loop of
    [elevationRulerMeasure] adds [last], [distance] and [text].  A label is
    the object [this.labels.children[i]]; the segment holds a reference to
    it, here its index [i]. *)
Record Segment : Type := mkSegment {
  seg_ray : Ray N;
  seg_label : option nat;
  seg_last : option bool;
  seg_distance : option N;
  seg_text : option string
}.

(** [{ray_elevated, label}] *)
Record ElevationSegment : Type := mkElevationSegment {
  ray_elevated : Ray N;
  eseg_label : option nat
}.

(** The identifiers the module reads without declaring them.  They resolve
    in the global scope: [None] is an identifier the global object does not
    have, and reading it throws a [ReferenceError]. *)
Record Globals : Type := mkGlobals {
  g_destination : option Point;
  g_gridSpaces : option bool;
  g_elevation_increments : option (list Z);
  g_segmentDistance : option N;
  g_totalDistance : option N
}.

Definition set_g_destination (p : Point) (g : Globals) : Globals :=
  {| g_destination := Some p; g_gridSpaces := g_gridSpaces g;
     g_elevation_increments := g_elevation_increments g;
     g_segmentDistance := g_segmentDistance g;
     g_totalDistance := g_totalDistance g |}.

Definition no_globals : Globals :=
  {| g_destination := None; g_gridSpaces := None;
     g_elevation_increments := None; g_segmentDistance := None;
     g_totalDistance := None |}.

Definition getGlobal {T : Type} (name : string) (v : option T) : Completion T :=
  match v with
  | Some a => Normal a
  | None => Throw (ReferenceError name)
  end.

(** What the module asks of the host: the grid and scene of [canvas], the
    ruler's own [_getSegmentLabel], and two built-ins of the language. *)
Class Host : Type := {
  (* canvas.grid.getCenter(x, y), as the point built from its result *)
  getCenter : N -> N -> Point;
  (* canvas.grid.measureDistances(segments, {gridSpaces}) *)
  measureDistances : list ElevationSegment -> bool -> Completion (list N);
  (* canvas.scene.data.gridDistance, .grid and .gridUnits *)
  gridDistance : N;
  grid : N;
  gridUnits : string;
  (* Ruler.prototype._getSegmentLabel(segmentDistance, totalDistance, isTotal) *)
  getSegmentLabel : N -> N -> bool -> string;
  (* Math.round *)
  Math_round : N -> N;
  (* the string of a number in a template literal *)
  Number_toString : N -> string
}.

Context {host : Host}.

(** *** [changeElevation] *)

Definition changeElevation (elevation_increment : Z) (this : Ruler) : Ruler :=
  set_elevation (elevation_increments this)
                (to_double (destination_elevation_increment this + elevation_increment))
                this.

(** *** [_getSegmentElevationLabel]

    [segmentDistance] and [totalDistance] are not parameters of the function
    and no enclosing scope declares them: they are global reads. *)
Definition getSegmentElevationLabel (g : Globals)
    (segmentElevationIncrement totalElevationIncrement : N) (isTotal : bool)
  : Completion string :=
  let units := gridUnits in
  let segmentArrow :=
    if of_Z 0 <? segmentElevationIncrement then "↑"
    else if segmentElevationIncrement <? of_Z 0 then "↓"
    else "" in
  segmentDistance <- getGlobal "segmentDistance" (g_segmentDistance g) ;;
  let label := segmentArrow
                 ++ Number_toString (Math_round (segmentDistance * of_Z 100) / of_Z 100)
                 ++ " " ++ units in
  if isTotal then
    let totalArrow :=
      if of_Z 0 <? totalElevationIncrement then "↑"
      else if totalElevationIncrement <? of_Z 0 then "↓"
      else "" in
    totalDistance <- getGlobal "totalDistance" (g_totalDistance g) ;;
    Normal (label ++ " [" ++ totalArrow
                  ++ Number_toString (Math_round (totalDistance * of_Z 100) / of_Z 100)
                  ++ " " ++ units ++ "]")
  else Normal label.

(** *** [elevationRulerMeasure] *)

(** The state of a call: the ruler [this] and the global scope. *)
Record World : Type := mkWorld {
  this : Ruler;
  globals : Globals
}.

(** [(a, b) => a == 0 && b == 0], the callback of the [reduce].  The
    accumulator starts as [true] and is a boolean ever after; [a == 0]
    compares it as a number, [true] being 1 and [false] 0. *)
Definition no_elevation_callback (a : bool) (b : Z) : bool :=
  (Z.b2z a =? 0)%Z && (b =? 0)%Z.

(** The condition of the [if] that guards the call of the original
    [measure].  [this.elevation_increments] is always an array, so
    [!this.elevation_increments] is false and the [reduce] decides. *)
Definition no_elevation_present (r : Ruler) : bool :=
  (destination_elevation_increment r =? 0)%Z
  && fold_left no_elevation_callback (elevation_increments r) true.

(** [this.elevation_increments[i] * canvas.scene.data.gridDistance *
    canvas.scene.data.grid]; an index out of range reads [undefined], which
    multiplies as NaN. *)
Definition elevation_at (r : Ruler) (i : nat) : N :=
  (match nth_error (elevation_increments r) i with
   | Some z => of_Z z
   | None => NaN
   end) * gridDistance * grid.

(** [this.labels.children[i]], as a reference. *)
Definition label_ref (r : Ruler) (i : nat) : option nat :=
  if (i <? List.length (labels r))%nat then Some i else None.

(** An assignment to fields of the label behind a reference. *)
Definition update_label (f : Label -> Label) (l : option nat) (r : Ruler) : Ruler :=
  match l with
  | Some i =>
      match nth_error (labels r) i with
      | Some lb => set_labels (set_nth i (f lb) (labels r)) r
      | None => r
      end
  | None => r
  end.

(** The body of the first loop, over [waypoints.slice(1).entries()]. *)
Definition segment_body (wps : list Point)
    (st : Ruler * list Segment * list ElevationSegment) (e : nat * Point)
  : Completion (Ruler * list Segment * list ElevationSegment) :=
  let '(r, segments, elevation_segments) := st in
  let '(i, dest) := e in
  origin <- match nth_error wps i with
            | Some o => Normal o
            | None => Throw (TypeError "origin")
            end ;;
  let label := label_ref r i in
  let ray := newRay origin dest in
  let elevation := elevation_at r (i + 1) in
  let elevated_dest := ProjectElevatedPoint origin dest elevation in
  let ray_elevated := newRay origin elevated_dest in
  if ray_distance ray_elevated <? of_Z 10 then
    Normal (update_label (set_label_visible false) label r,
            segments, elevation_segments)
  else
    Normal (r,
            push segments
                 {| seg_ray := ray; seg_label := label; seg_last := None;
                    seg_distance := None; seg_text := None |},
            push elevation_segments
                 {| ray_elevated := ray_elevated; eseg_label := label |}).

(** [elevation_increments[i + 1] != 0] on the global of that name. *)
Definition loose_neq_0 (v : option Z) : bool :=
  match v with
  | Some z => negb (z =? 0)%Z
  | None => true
  end.

(** The body of the second loop, over [distances.entries()]. *)
Definition distance_body (r : Ruler) (g : Globals)
    (st : list Segment * N * N) (e : nat * N)
  : Completion (list Segment * N * N) :=
  let '(segments, totalDistance, totalElevation) := st in
  let '(i, d) := e in
  let totalDistance := totalDistance + d in
  s <- match nth_error segments i with
       | Some s => Normal s
       | None => Throw (TypeError "s")
       end ;;
  let last := (Z.of_nat i =? Z.of_nat (List.length segments) - 1)%Z in
  let text := getSegmentLabel d totalDistance last in
  incs <- getGlobal "elevation_increments" (g_elevation_increments g) ;;
  if loose_neq_0 (nth_error incs (i + 1)) then
    let elevation := elevation_at r (i + 1) in
    let totalElevation := totalElevation + elevation in
    t <- getSegmentElevationLabel g elevation totalElevation last ;;
    Normal (set_nth i {| seg_ray := seg_ray s; seg_label := seg_label s;
                         seg_last := Some last; seg_distance := Some d;
                         seg_text := Some (text ++ t) |} segments,
            totalDistance, totalElevation)
  else
    Normal (set_nth i {| seg_ray := seg_ray s; seg_label := seg_label s;
                         seg_last := Some last; seg_distance := Some d;
                         seg_text := Some text |} segments,
            totalDistance, totalElevation).

(** The body of the loop that draws the measured path. *)
Definition draw_segment (r : Ruler) (s : Segment) : Ruler :=
  let ray := seg_ray s in
  let last := match seg_last s with Some b => b | None => false end in
  let r := set_drawing
             (ruler r ++ [Line 6 (ray_A ray) (ray_B ray);
                          Line 4 (ray_A ray) (ray_B ray)])%list
             (highlight r) r in
  let r := update_label
             (fun _ =>
                {| label_text := seg_text s;
                   label_alpha := if last then of_Z 1 else of_Z 1 / of_Z 2;
                   label_visible := true;
                   label_position :=
                     Ray_project ray ((ray_distance ray + of_Z 50) / ray_distance ray) |})
             (seg_label s) r in
  set_drawing (ruler r) (highlight r ++ [ray])%list r.

Definition draw_endpoint (r : Ruler) (p : Point) : Ruler :=
  set_drawing (ruler r ++ [Circle p 8])%list (highlight r) r.

Variable Args : Type.

Definition elevationRulerMeasure
    (wrapped : Args -> World -> Completion (list Segment * World))
    (args : Args) (w : World) : Completion (list Segment * World) :=
  if no_elevation_present (this w) then wrapped args w
  else
    destination <- getGlobal "destination" (g_destination (globals w)) ;;
    let destination := getCenter (PIXI.x destination) (PIXI.y destination) in
    let g := set_g_destination destination (globals w) in
    let wps := (waypoints (this w) ++ [destination])%list in
    let r := set_destination destination (this w) in
    '(r, segments, elevation_segments) <-
        forOf (segment_body wps) (entries (tl wps)) (r, [], []) ;;
    gridSpaces <- getGlobal "gridSpaces" (g_gridSpaces g) ;;
    distances <- measureDistances elevation_segments gridSpaces ;;
    '(segments, _, _) <-
        forOf (distance_body r g) (entries distances) (segments, of_Z 0, of_Z 0) ;;
    let r := set_drawing [] [] r in
    let r := fold_left draw_segment segments r in
    let r := fold_left draw_endpoint wps r in
    Normal (segments, {| this := r; globals := g |}).

(** *** The other wrappers

    Each ends in [return wrapped(...args)]: whatever the host's method does
    with the ruler it is handed, the wrapper returns. *)

Definition elevationRulerMoveToken {Out : Type}
    (wrapped : Args -> Ruler -> Out) (args : Args) (r : Ruler) : Out :=
  wrapped args r.

Definition elevationRulerClear {Out : Type}
    (wrapped : Args -> Ruler -> Out) (args : Args) (r : Ruler) : Out :=
  wrapped args (set_elevation [] 0%Z r).

Definition elevationRulerUpdate {Out : Type}
    (wrapped : Args -> Ruler -> Out) (args : Args) (r : Ruler) : Out :=
  wrapped args r.

Definition elevationRulerAddWaypoint {Out : Type}
    (wrapped : Args -> Ruler -> Out) (args : Args) (r : Ruler) : Out :=
  let r := set_elevation
             (push (elevation_increments r) (destination_elevation_increment r))
             (destination_elevation_increment r) r in
  let r := set_elevation (elevation_increments r) 0%Z r in
  wrapped args r.

Definition elevationRulerRemoveWaypoint {Out : Type}
    (wrapped : Args -> Ruler -> Out) (args : Args) (r : Ruler) : Out :=
  let r := set_elevation (pop (elevation_increments r))
                         (destination_elevation_increment r) r in
  let r := set_elevation (elevation_increments r) 0%Z r in
  wrapped args r.

(** [incrementElevation] and [decrementElevation], on [canvas.controls.ruler]
    ([None]: there is no ruler). *)
Definition incrementElevation (canvas_controls_ruler : option Ruler) : option Ruler :=
  match canvas_controls_ruler with
  | None => None
  | Some r => if negb (active r) then Some r else Some (changeElevation 1 r)
  end.

Definition decrementElevation (canvas_controls_ruler : option Ruler) : option Ruler :=
  match canvas_controls_ruler with
  | None => None
  | Some r => if negb (active r) then Some r else Some (changeElevation (-1) r)
  end.

End Ruler.

Arguments Label N : clear implicits.
Arguments DrawCmd N : clear implicits.
Arguments Ruler N : clear implicits.
Arguments Segment N : clear implicits.
Arguments ElevationSegment N : clear implicits.
Arguments Globals N : clear implicits.
Arguments World N : clear implicits.
Arguments Host N : clear implicits.

(** ** The session: clear, add a waypoint, remove a waypoint

    The wrappers are installed around the host's [Ruler.clear],
    [Ruler._addWaypoint] and [Ruler._removeWaypoint].  A session is a run of
    the wrapped add and remove methods on the ruler. *)

Section Session.
Context {N : Type} {Args : Type}.
Variable host_addWaypoint host_removeWaypoint : Args -> Ruler N -> Ruler N.

Inductive Transition : Type :=
| AddWaypoint (args : Args)
| RemoveWaypoint (args : Args).

Definition step (r : Ruler N) (t : Transition) : Ruler N :=
  match t with
  | AddWaypoint args => elevationRulerAddWaypoint host_addWaypoint args r
  | RemoveWaypoint args => elevationRulerRemoveWaypoint host_removeWaypoint args r
  end.

Definition run (ts : list Transition) (r : Ruler N) : Ruler N :=
  fold_left step ts r.

End Session.

Arguments Transition Args : clear implicits.

(** [ruler && ruler.active], the negation of the guard of
    [incrementElevation] and [decrementElevation]. *)
Definition ruler_is_active {N : Type} (canvas_controls_ruler : option (Ruler N)) : bool :=
  match canvas_controls_ruler with
  | Some r => active r
  | None => false
  end.

(** ** A host

    One host among those the properties below range over, at which they are
    instantiated: a gridless scene, where the centre of a position is the
    position and a segment measures the length of its elevated ray, and a
    ruler whose [_addWaypoint] pushes the point and a fresh label, whose
    [_removeWaypoint] pops both and whose [clear] empties both.  None of it
    is code of the module. *)

Section HostMethods.
Context {N : Type} `{Number N}.

Definition set_waypoints (wps : list (PIXI.Point N)) (ls : list (Label N))
    (r : Ruler N) : Ruler N :=
  {| waypoints := wps; destination := destination r;
     labels := ls; active := active r; ruler := ruler r;
     highlight := highlight r;
     elevation_increments := elevation_increments r;
     destination_elevation_increment := destination_elevation_increment r |}.

Definition fresh_label : Label N :=
  {| label_text := Some ""%string; label_alpha := of_Z 1; label_visible := true;
     label_position := PIXI.mkPoint (of_Z 0) (of_Z 0) |}.

Definition Ruler_addWaypoint (point : PIXI.Point N) (r : Ruler N) : Ruler N :=
  set_waypoints (push (waypoints r) point) (push (labels r) fresh_label) r.

Definition Ruler_removeWaypoint (point : PIXI.Point N) (r : Ruler N) : Ruler N :=
  set_waypoints (pop (waypoints r)) (pop (labels r)) r.

Definition Ruler_clear (point : PIXI.Point N) (r : Ruler N) : Ruler N :=
  set_waypoints [] [] r.

Definition gridless : Host N :=
  {| getCenter := fun x y => PIXI.mkPoint x y;
     measureDistances :=
       fun segments _ => Normal (map (fun s => ray_distance (ray_elevated s)) segments);
     gridDistance := of_Z 1;
     grid := of_Z 1;
     gridUnits := "px"%string;
     getSegmentLabel := fun _ _ _ => ""%string;
     Math_round := fun n => n;
     Number_toString := fun _ => ""%string |}.

End HostMethods.

(** ** The geometry the projection is meant to have

    The comment of [ProjectElevatedPoint] describes [C] as the corner of the
    right triangle on [A], [B]: the distance from [A] to [C] is the
    hypotenuse of the legs [|AB|] and [height].  These are the quantities the
    statements about the projection compare it with. *)

Section Expected.
Context {N : Type} `{Number N}.
Local Open Scope js_scope.

(** [hypot(distance(A, B), height)], the slant distance. *)
Definition slant_distance (A B : PIXI.Point N) (height : N) : N :=
  hypot (ray_distance (newRay A B)) height.

(** The cross product of [A -> B] and [A -> C]: zero exactly when the two
    vectors are collinear. *)
Definition cross (A B C : PIXI.Point N) : N :=
  (PIXI.x B - PIXI.x A) * (PIXI.y C - PIXI.y A)
  - (PIXI.y B - PIXI.y A) * (PIXI.x C - PIXI.x A).

(** The mirror image of [P] across the line through [A] and [B]. *)
Definition mirror (A B P : PIXI.Point N) : PIXI.Point N :=
  let dx := PIXI.x B - PIXI.x A in
  let dy := PIXI.y B - PIXI.y A in
  let t := ((PIXI.x P - PIXI.x A) * dx + (PIXI.y P - PIXI.y A) * dy)
           / (dx * dx + dy * dy) in
  let foot_x := PIXI.x A + t * dx in
  let foot_y := PIXI.y A + t * dy in
  PIXI.mkPoint (of_Z 2 * foot_x - PIXI.x P) (of_Z 2 * foot_y - PIXI.y P).

End Expected.

(** ** The legs of a measured path

    The first loop of [elevationRulerMeasure] visits the legs of the path
    [waypoints]: leg [i] goes from [waypoints[i]] to [waypoints[i + 1]]. *)

Section Legs.
Context {N : Type} `{Number N} {host : Host N}.
Local Open Scope js_scope.

Definition Leg : Type := (nat * PIXI.Point N * PIXI.Point N)%type.

Fixpoint legs_from (i : nat) (origin : PIXI.Point N) (rest : list (PIXI.Point N))
  : list Leg :=
  match rest with
  | [] => []
  | dest :: rest' => (i, origin, dest) :: legs_from (S i) dest rest'
  end.

Definition legs (wps : list (PIXI.Point N)) : list Leg :=
  match wps with
  | [] => []
  | origin :: rest => legs_from 0 origin rest
  end.

Definition leg_index (leg : Leg) : nat := fst (fst leg).

(** The leg as drawn. *)
Definition leg_ray (leg : Leg) : Ray N :=
  newRay (snd (fst leg)) (snd leg).

(** The leg as measured: to the projected destination. *)
Definition leg_ray_elevated (r : Ruler N) (leg : Leg) : Ray N :=
  newRay (snd (fst leg))
         (ProjectElevatedPoint (snd (fst leg)) (snd leg)
                               (elevation_at r (leg_index leg + 1))).

(** The test of the loop: the measured leg is shorter than 10. *)
Definition leg_suppressed (r : Ruler N) (leg : Leg) : bool :=
  ray_distance (leg_ray_elevated r leg) <? of_Z 10.

Definition kept_legs (r : Ruler N) (wps : list (PIXI.Point N)) : list Leg :=
  filter (fun leg => negb (leg_suppressed r leg)) (legs wps).

(** The two records the loop pushes for a leg it keeps. *)
Definition leg_segment (r : Ruler N) (leg : Leg) : Segment N :=
  {| seg_ray := leg_ray leg; seg_label := label_ref r (leg_index leg);
     seg_last := None; seg_distance := None; seg_text := None |}.

Definition leg_elevation_segment (r : Ruler N) (leg : Leg) : ElevationSegment N :=
  {| ray_elevated := leg_ray_elevated r leg;
     eseg_label := label_ref r (leg_index leg) |}.

(** What the drawing loop draws for one ray. *)
Definition segment_lines (ray : Ray N) : list (DrawCmd N) :=
  [Line 6 (ray_A ray) (ray_B ray); Line 4 (ray_A ray) (ray_B ray)].

End Legs.

(** The ruler before any gesture: the two fields of the module hold the
    values the prototype gives them, [[]] and [0]. *)
Definition idle_ruler {N : Type} : Ruler N :=
  {| waypoints := []; destination := None; labels := []; active := false;
     ruler := []; highlight := [];
     elevation_increments := []; destination_elevation_increment := 0%Z |}.

(** Points with integer coordinates, as doubles and as reals. *)
Definition pt (a b : Z) : PIXI.Point float64 :=
  PIXI.mkPoint (float_of_Z a) (float_of_Z b).

Definition rpt (a b : R) : PIXI.Point xreal :=
  PIXI.mkPoint (Fin a) (Fin b).

(** The ruler once the origin of a measurement is committed: one waypoint,
    whose increment is 0, and no pending increment. *)
Definition origin_ruler (A : PIXI.Point float64) : Ruler float64 :=
  {| waypoints := [A]; destination := None; labels := [fresh_label];
     active := true; ruler := []; highlight := [];
     elevation_increments := [0%Z]; destination_elevation_increment := 0%Z |}.

(** A measurement under way: two committed waypoints, (0,0) and (3,4), a
    pending increment of 1 and the cursor at (100,0), on a page that defines
    the globals the elevation path reads. *)
Definition short_leg_world : World float64 :=
  {| this :=
       {| waypoints := [pt 0 0; pt 3 4]; destination := None;
          labels := [fresh_label; fresh_label]; active := true;
          ruler := []; highlight := [];
          elevation_increments := [0%Z; 0%Z];
          destination_elevation_increment := 1%Z |};
     globals :=
       {| g_destination := Some (pt 100 0); g_gridSpaces := Some true;
          g_elevation_increments := Some [0%Z; 0%Z; 0%Z];
          g_segmentDistance := None; g_totalDistance := None |} |}.

(** A stand-in for the host's [measure]. *)
Definition Ruler_measure (args : unit) (w : World float64)
  : Completion (list (Segment float64) * World float64) :=
  Normal ([], w).

(** The value of a call that returns. *)
Definition returned {T : Type} (c : Completion T) (otherwise : T) : T :=
  match c with
  | Normal v => v
  | Throw _ => otherwise
  end.

(** A host method that leaves the two fields of the module alone: the host
    does not know them. *)
Definition keeps_elevation {N Args : Type} (f : Args -> Ruler N -> Ruler N) : Prop :=
  forall a r,
    elevation_increments (f a r) = elevation_increments r
    /\ destination_elevation_increment (f a r) = destination_elevation_increment r.

(** Two rulers that differ at most in the pending increment. *)
Definition same_but_pending {N : Type} (r r' : Ruler N) : Prop :=
  waypoints r' = waypoints r
  /\ destination r' = destination r
  /\ labels r' = labels r
  /\ active r' = active r
  /\ ruler r' = ruler r
  /\ highlight r' = highlight r
  /\ elevation_increments r' = elevation_increments r.

(** The invariant of a session: as many increments as waypoints, all of
    them zero, and no pending increment. *)
Definition session_inv {N : Type} (r : Ruler N) : Prop :=
  List.length (elevation_increments r) = List.length (waypoints r)
  /\ Forall (fun z => z = 0%Z) (elevation_increments r)
  /\ destination_elevation_increment r = 0%Z.

(** ** Quantities of a session *)

(** The number of zeros at the head of a list of increments, and at its end. *)
Fixpoint leading_zeros (l : list Z) : nat :=
  match l with
  | 0%Z :: l' => S (leading_zeros l')
  | _ => 0
  end.

Definition trailing_zeros (l : list Z) : nat := leading_zeros (rev l).

(** The elevation of the cursor over the origin of the path, in grid cells:
    the committed increments and the pending one. *)
Definition total_increment {N : Type} (r : Ruler N) : Z :=
  (fold_right Z.add 0 (elevation_increments r) + destination_elevation_increment r)%Z.

(** ** Frames *)

(** What a call of [elevationRulerMeasure] may change in the ruler besides
    [destination]: the labels' fields and the drawing.  The waypoints, the
    flag [active], the two elevation fields and the number of labels stay. *)
Definition kept_but_drawing {N : Type} (r r' : Ruler N) : Prop :=
  waypoints r' = waypoints r
  /\ destination r' = destination r
  /\ active r' = active r
  /\ elevation_increments r' = elevation_increments r
  /\ destination_elevation_increment r' = destination_elevation_increment r
  /\ List.length (labels r') = List.length (labels r).

(** NaN is absorbing on the left of the arithmetic of a number type, and
    compares below nothing. *)
Definition NaN_propagates (N : Type) `{Number N} : Prop :=
  (forall a : N, mul NaN a = NaN)
  /\ (forall a : N, div NaN a = NaN)
  /\ (forall a : N, add NaN a = NaN)
  /\ (forall a : N, sub NaN a = NaN)
  /\ hypot (NaN : N) NaN = NaN
  /\ (forall a : N, ltb NaN a = false).
Arguments NaN_propagates N {_}.

(** ** The collection helpers of [util.js] *)

Section JSMap.
Context {K V : Type}.
Variable K_eqb : K -> K -> bool.

(** A [Map]: its entries in insertion order, with distinct keys.
    [K_eqb] is the equality of keys. *)
Fixpoint Map_get (key : K) (m : list (K * V)) : option V :=
  match m with
  | [] => None
  | (k, v) :: m' => if K_eqb key k then Some v else Map_get key m'
  end.

(** [map.set(key, v)]: a new key goes to the end, a known key keeps its
    place. *)
Fixpoint Map_set (key : K) (v : V) (m : list (K * V)) : list (K * V) :=
  match m with
  | [] => [(key, v)]
  | (k, v0) :: m' =>
      if K_eqb key k then (k, v) :: m' else (k, v0) :: Map_set key v m'
  end.

End JSMap.

(** [groupBy(list, keyGetter)], the parameter [list] being [items] here.  The
    arrays are the ones the map holds: the [push] on [collection] changes
    the entry of [key]. *)
Definition groupBy {T K : Type} (K_eqb : K -> K -> bool)
    (items : list T) (keyGetter : T -> K) : list (K * list T) :=
  fold_left
    (fun map item =>
       let key := keyGetter item in
       match Map_get K_eqb key map with
       | None => Map_set K_eqb key [item] map
       | Some collection => Map_set K_eqb key (push collection item) map
       end)
    items [].

Section FilterSplice.
Context {T : Type}.

(** [arr.splice(idx, 1)] *)
Fixpoint splice1 (idx : nat) (arr : list T) : list T :=
  match arr, idx with
  | [], _ => []
  | _ :: arr', O => arr'
  | a :: arr', S i => a :: splice1 i arr'
  end.

(** [indices.sort((a, b) => b - a)]: descending. *)
Fixpoint insert_desc (a : nat) (l : list nat) : list nat :=
  match l with
  | [] => [a]
  | b :: l' => if (b <? a)%nat then a :: l else b :: insert_desc a l'
  end.

Definition sort_desc (l : list nat) : list nat := fold_right insert_desc [] l.

(** [filterSplice(arr, filterFn)]: the returned array and [arr] after the
    call.  [filterFn] is called with the element, its index and the array. *)
Definition filterSplice (arr : list T) (filterFn : T -> nat -> list T -> bool)
  : list T * list T :=
  let '(filteredElems, indices) :=
    fold_left
      (fun (acc : list T * list nat) (e : nat * T) =>
         let '(elems, indices) := acc in
         let '(idx, elem) := e in
         if negb (filterFn elem idx arr) then (elems, indices)
         else (push elems elem, push indices idx))
      (entries arr) ([], []) in
  let indices := sort_desc indices in
  let arr := fold_left (fun arr idx => splice1 idx arr) indices arr in
  (filteredElems, arr).

End FilterSplice.

Section KeyForValue.
Context {V : Type}.
Variable V_eqb : V -> V -> bool.

(** An object: its own properties in the order of [Object.keys]. *)
Definition Object_keys (object : list (string * V)) : list string := map fst object.

Fixpoint Object_get (object : list (string * V)) (key : string) : option V :=
  match object with
  | [] => None
  | (k, v) :: object' => if String.eqb key k then Some v else Object_get object' key
  end.

(** [keyForValue(object, value)]; [V_eqb] is [===]. *)
Definition keyForValue (object : list (string * V)) (value : V) : option string :=
  find (fun key =>
          match Object_get object key with
          | Some v => V_eqb v value
          | None => false
          end)
       (Object_keys object).

End KeyForValue.

(** ** The two fields on the prototype

    [elevation_increments] and [destination_elevation_increment] are defined
    on [Ruler.prototype], with the values [[]] and [0].  A ruler has a field
    of its own only once it has been assigned: until then it reads the
    prototype's, and a [push] or [pop] acts on the prototype's array, the one
    every ruler without a field of its own reads. *)

Module Proto.

Record Prototype : Type := mkPrototype {
  proto_elevation_increments : list Z
}.

(** The fields a ruler has of its own ([None]: it has none and reads the
    prototype's). *)
Record Own : Type := mkOwn {
  own_elevation_increments : option (list Z);
  own_destination_elevation_increment : option Z
}.

(** [this.elevation_increments] *)
Definition elevation_increments (p : Prototype) (o : Own) : list Z :=
  match own_elevation_increments o with
  | Some l => l
  | None => proto_elevation_increments p
  end.

(** [this.destination_elevation_increment]; the prototype's value is 0 and is
    never written. *)
Definition destination_elevation_increment (o : Own) : Z :=
  match own_destination_elevation_increment o with
  | Some d => d
  | None => 0%Z
  end.

(** A change of the array behind [this.elevation_increments], in place. *)
Definition mutate_array (f : list Z -> list Z) (p : Prototype) (o : Own)
  : Prototype * Own :=
  match own_elevation_increments o with
  | Some l =>
      (p, {| own_elevation_increments := Some (f l);
             own_destination_elevation_increment :=
               own_destination_elevation_increment o |})
  | None =>
      ({| proto_elevation_increments := f (proto_elevation_increments p) |}, o)
  end.

(** [this.destination_elevation_increment = d] *)
Definition assign_destination (d : Z) (o : Own) : Own :=
  {| own_elevation_increments := own_elevation_increments o;
     own_destination_elevation_increment := Some d |}.

(** The statements of the wrappers that touch the two fields. *)
Definition elevationRulerClear (p : Prototype) (o : Own) : Prototype * Own :=
  (p, {| own_elevation_increments := Some [];
         own_destination_elevation_increment := Some 0%Z |}).

Definition elevationRulerAddWaypoint (p : Prototype) (o : Own) : Prototype * Own :=
  let '(p, o) :=
    mutate_array (fun l => push l (destination_elevation_increment o)) p o in
  (p, assign_destination 0%Z o).

Definition elevationRulerRemoveWaypoint (p : Prototype) (o : Own) : Prototype * Own :=
  let '(p, o) := mutate_array pop p o in
  (p, assign_destination 0%Z o).

Definition changeElevation (elevation_increment : Z) (p : Prototype) (o : Own)
  : Prototype * Own :=
  (p, assign_destination
        (to_double (destination_elevation_increment o + elevation_increment)) o).

Inductive Op : Type :=
| Clear
| AddWaypoint
| RemoveWaypoint
| ChangeElevation (elevation_increment : Z).

Definition apply (st : Prototype * Own) (op : Op) : Prototype * Own :=
  match op with
  | Clear => elevationRulerClear (fst st) (snd st)
  | AddWaypoint => elevationRulerAddWaypoint (fst st) (snd st)
  | RemoveWaypoint => elevationRulerRemoveWaypoint (fst st) (snd st)
  | ChangeElevation z => changeElevation z (fst st) (snd st)
  end.

End Proto.

(** The same operations on the record [Ruler], whose two fields are its
    own, with a host method that does nothing. *)
Definition apply_own {N : Type} (r : Ruler N) (op : Proto.Op) : Ruler N :=
  match op with
  | Proto.Clear => elevationRulerClear (fun (_ : unit) r => r) tt r
  | Proto.AddWaypoint => elevationRulerAddWaypoint (fun (_ : unit) r => r) tt r
  | Proto.RemoveWaypoint => elevationRulerRemoveWaypoint (fun (_ : unit) r => r) tt r
  | Proto.ChangeElevation z => changeElevation z r
  end.

(** A ruler and its fields read through the prototype agree. *)
Definition agrees {N : Type} (r : Ruler N) (st : Proto.Prototype * Proto.Own) : Prop :=
  Proto.own_elevation_increments (snd st) = Some (elevation_increments r)
  /\ Proto.own_destination_elevation_increment (snd st)
     = Some (destination_elevation_increment r).

(** A path with a leg of length 0, a leg from (0,0) to (6,6) that climbs 5,
    a leg from (6,6) to (12,12) that descends 8, and the cursor 3 away from
    the last waypoint, on a grid of unit cells. *)
Definition mixed_legs_ruler : Ruler float64 :=
  {| waypoints := [pt 0 0; pt 0 0; pt 6 6; pt 12 12]; destination := None;
     labels := [fresh_label; fresh_label; fresh_label; fresh_label];
     active := true; ruler := []; highlight := [];
     elevation_increments := [0%Z; 0%Z; 5%Z; (-8)%Z];
     destination_elevation_increment := 1%Z |}.

Definition mixed_legs_path : list (PIXI.Point float64) :=
  (waypoints mixed_legs_ruler ++ [pt 12 15])%list.

(** * Properties *)

(** ** The session state *)

Section SessionFacts.
Context {N : Type} {Args : Type}.
Variables host_clear host_addWaypoint host_removeWaypoint : Args -> Ruler N -> Ruler N.

Hypothesis clear_keeps : keeps_elevation host_clear.
Hypothesis add_keeps : keeps_elevation host_addWaypoint.
Hypothesis remove_keeps : keeps_elevation host_removeWaypoint.
Hypothesis clear_waypoints :
  forall a r, waypoints (host_clear a r) = [].
Hypothesis add_waypoints :
  forall a r, List.length (waypoints (host_addWaypoint a r)) = S (List.length (waypoints r)).
Hypothesis remove_waypoints :
  forall a r, List.length (waypoints (host_removeWaypoint a r)) = pred (List.length (waypoints r)).

#[local] Abbreviation step' := (step host_addWaypoint host_removeWaypoint).
#[local] Abbreviation run' := (run host_addWaypoint host_removeWaypoint).

Lemma add_step (a : Args) (r : Ruler N) :
  elevation_increments (step' r (AddWaypoint a))
  = (elevation_increments r ++ [destination_elevation_increment r])%list
  /\ destination_elevation_increment (step' r (AddWaypoint a)) = 0%Z.
Proof.
  unfold step, elevationRulerAddWaypoint, push.
  destruct (add_keeps a
    (set_elevation
       (elevation_increments
          (set_elevation
             (elevation_increments r ++ [destination_elevation_increment r])
             (destination_elevation_increment r) r)) 0%Z
       (set_elevation
          (elevation_increments r ++ [destination_elevation_increment r])
          (destination_elevation_increment r) r))) as [Hi Hd].
  rewrite Hi, Hd. split; reflexivity.
Qed.

Lemma remove_step (a : Args) (r : Ruler N) :
  elevation_increments (step' r (RemoveWaypoint a))
  = removelast (elevation_increments r)
  /\ destination_elevation_increment (step' r (RemoveWaypoint a)) = 0%Z.
Proof.
  unfold step, elevationRulerRemoveWaypoint, pop.
  match goal with
  | |- context [host_removeWaypoint a ?s] =>
      destruct (remove_keeps a s) as [Hi Hd]; rewrite Hi, Hd
  end.
  split; reflexivity.
Qed.

Lemma step_waypoints (t : Transition Args) (r : Ruler N) :
  List.length (waypoints (step' r t))
  = match t with
    | AddWaypoint _ => S (List.length (waypoints r))
    | RemoveWaypoint _ => pred (List.length (waypoints r))
    end.
Proof.
  destruct t as [a | a]; unfold step, elevationRulerAddWaypoint,
    elevationRulerRemoveWaypoint.
  - rewrite add_waypoints. reflexivity.
  - rewrite remove_waypoints. reflexivity.
Qed.

Lemma session_inv_clear (a : Args) (r : Ruler N) :
  session_inv (elevationRulerClear host_clear a r).
Proof.
  unfold session_inv, elevationRulerClear.
  destruct (clear_keeps a (set_elevation [] 0%Z r)) as [Hi Hd].
  rewrite Hi, Hd, clear_waypoints. simpl. auto.
Qed.

Lemma session_inv_step (t : Transition Args) (r : Ruler N) :
  session_inv r -> session_inv (step' r t).
Proof.
  intros (Hlen & Hall & Hd). unfold session_inv.
  rewrite step_waypoints. destruct t as [a | a].
  - destruct (add_step a r) as [Hi Hd']. rewrite Hi, Hd', Hd.
    rewrite length_app. simpl. repeat split.
    + lia.
    + apply Forall_app. split; [assumption | constructor; auto].
  - destruct (remove_step a r) as [Hi Hd']. rewrite Hi, Hd'.
    repeat split.
    + rewrite <- Hlen. clear -N.
      induction (elevation_increments r) as [| z [| z' l] IH]; simpl in *; auto.
    + clear -Hall. induction Hall as [| z [| z' l] Hz Hl IH]; simpl; auto.
Qed.

Lemma session_inv_run (ts : list (Transition Args)) (r : Ruler N) :
  session_inv r -> session_inv (run' ts r).
Proof.
  revert r. induction ts as [| t ts IH]; intros r Hr; simpl.
  - exact Hr.
  - apply IH, session_inv_step, Hr.
Qed.

(** C4.  From the cleared state, after any run of add-waypoint and
    remove-waypoint transitions, there are as many elevation increments as
    committed waypoints and the first increment, if there is one, is 0.  Adding
    a waypoint appends the pending increment and resets it to 0; removing one
    drops the last increment and resets the pending increment to 0. *)
Theorem increment_waypoint_parity
    (a0 : Args) (r0 : Ruler N) (ts : list (Transition Args)) :
  List.length (elevation_increments (run' ts (elevationRulerClear host_clear a0 r0)))
  = List.length (waypoints (run' ts (elevationRulerClear host_clear a0 r0)))
  /\ (forall z,
        nth_error (elevation_increments (run' ts (elevationRulerClear host_clear a0 r0))) 0
        = Some z -> z = 0%Z)
  /\ (forall a r,
        elevation_increments (step' r (AddWaypoint a))
        = (elevation_increments r ++ [destination_elevation_increment r])%list
        /\ destination_elevation_increment (step' r (AddWaypoint a)) = 0%Z)
  /\ (forall a r,
        elevation_increments (step' r (RemoveWaypoint a))
        = removelast (elevation_increments r)
        /\ destination_elevation_increment (step' r (RemoveWaypoint a)) = 0%Z).
Proof.
  destruct (session_inv_run ts (session_inv_clear a0 r0)) as (Hlen & Hall & _).
  split; [exact Hlen |].
  split.
  - intros z Hz. apply nth_error_In in Hz.
    rewrite Forall_forall in Hall. apply Hall, Hz.
  - split; [exact add_step | exact remove_step].
Qed.

End SessionFacts.

Lemma keeps_elevation_set_waypoints {N : Type} `{Number N}
    (f : PIXI.Point N -> Ruler N -> Ruler N) :
  (forall p r, exists wps ls, f p r = set_waypoints wps ls r) ->
  keeps_elevation f.
Proof.
  intros Hf p r. destruct (Hf p r) as (wps & ls & ->). split; reflexivity.
Qed.

Lemma length_pop {T : Type} (xs : list T) :
  List.length (pop xs) = pred (List.length xs).
Proof.
  unfold pop. induction xs as [| a [| b xs] IH]; simpl in *; auto.
Qed.

Lemma length_push {T : Type} (xs : list T) (v : T) :
  List.length (push xs v) = S (List.length xs).
Proof. unfold push. rewrite length_app. simpl. lia. Qed.

Lemma increment_waypoint_parity_witness :
  List.length
    (elevation_increments
       (run Ruler_addWaypoint Ruler_removeWaypoint
            [AddWaypoint (pt 0 0); AddWaypoint (pt 3 4); RemoveWaypoint (pt 3 4);
             AddWaypoint (pt 100 0)]
            (elevationRulerClear Ruler_clear (pt 0 0) idle_ruler)))
  = 2%nat
  /\ List.length
       (waypoints
          (run Ruler_addWaypoint Ruler_removeWaypoint
               [AddWaypoint (pt 0 0); AddWaypoint (pt 3 4); RemoveWaypoint (pt 3 4);
                AddWaypoint (pt 100 0)]
               (elevationRulerClear Ruler_clear (pt 0 0) idle_ruler)))
     = 2%nat.
Proof.
  pose proof
    (@increment_waypoint_parity float64 (PIXI.Point float64)
       Ruler_clear Ruler_addWaypoint Ruler_removeWaypoint
       (keeps_elevation_set_waypoints _
          (fun p r => ex_intro _ _ (ex_intro _ _ eq_refl)))
       (keeps_elevation_set_waypoints _
          (fun p r => ex_intro _ _ (ex_intro _ _ eq_refl)))
       (keeps_elevation_set_waypoints _
          (fun p r => ex_intro _ _ (ex_intro _ _ eq_refl)))
       (fun a r => eq_refl)
       (fun a r => length_push (waypoints r) a)
       (fun a r => length_pop (waypoints r))
       (pt 0 0) idle_ruler
       [AddWaypoint (pt 0 0); AddWaypoint (pt 3 4); RemoveWaypoint (pt 3 4);
        AddWaypoint (pt 100 0)]) as [Hlen _].
  split; [reflexivity |].
  rewrite <- Hlen. reflexivity.
Defined.

(** ** Changing the pending increment *)

Lemma to_double_exact (z : Z) :
  (Z.abs z <= 2 ^ 53)%Z -> to_double z = z.
Proof.
  intros Hz. unfold to_double.
  destruct (Z.ltb_spec (Z.abs z) (2 ^ 53)) as [_ | Hge]; [reflexivity |].
  change (2 ^ 53)%Z with 9007199254740992%Z in Hz, Hge.
  assert (Hcases : z = 9007199254740992%Z \/ z = (-9007199254740992)%Z) by lia.
  destruct Hcases as [-> | ->]; vm_compute; reflexivity.
Qed.

(** [to_double] against the addition of the doubles themselves, at the first
    integers that are not doubles. *)
Lemma to_double_is_float_addition :
  PrimFloat.add (float_of_Z 9007199254740992) (float_of_Z 1)
  = float_of_Z (to_double (9007199254740992 + 1))
  /\ PrimFloat.add (float_of_Z 9007199254740994) (float_of_Z 1)
     = float_of_Z (to_double (9007199254740994 + 1))
  /\ PrimFloat.add (float_of_Z (-9007199254740992)) (float_of_Z (-1))
     = float_of_Z (to_double (-9007199254740992 + -1))
  /\ PrimFloat.add (float_of_Z 9007199254740991) (float_of_Z 1)
     = float_of_Z (to_double (9007199254740991 + 1))
  /\ to_double 9007199254740993 = 9007199254740992%Z
  /\ to_double 9007199254740995 = 9007199254740996%Z
  /\ to_double (-9007199254740993) = (-9007199254740992)%Z.
Proof. repeat split; vm_compute; reflexivity. Qed.

Lemma changeElevation_exact {N : Type} (d : Z) (r : Ruler N) :
  (Z.abs (destination_elevation_increment r + d) <= 2 ^ 53)%Z ->
  destination_elevation_increment (changeElevation d r)
  = (destination_elevation_increment r + d)%Z.
Proof.
  intros Hb. unfold changeElevation, set_elevation.
  cbn [destination_elevation_increment]. apply to_double_exact, Hb.
Qed.

(** C9.  [incrementElevation] and [decrementElevation] change nothing when
    there is no ruler or the ruler is not active.  On an active ruler whose
    pending increment is below 2^53 in absolute value, the range in which a
    double holds every integer, the first adds 1 to the pending increment
    and the second subtracts 1, and every other field of the ruler, the
    committed increments among them, is left as it was. *)
Theorem increment_decrement_elevation {N : Type} (c : option (Ruler N)) :
  (ruler_is_active c = false ->
     incrementElevation c = c /\ decrementElevation c = c)
  /\ (forall r, c = Some r -> active r = true ->
       (Z.abs (destination_elevation_increment r) < 2 ^ 53)%Z ->
       exists r1 r2,
         incrementElevation c = Some r1
         /\ decrementElevation c = Some r2
         /\ destination_elevation_increment r1
            = (destination_elevation_increment r + 1)%Z
         /\ destination_elevation_increment r2
            = (destination_elevation_increment r - 1)%Z
         /\ same_but_pending r r1
         /\ same_but_pending r r2).
Proof.
  split.
  - destruct c as [r |]; cbn [ruler_is_active incrementElevation decrementElevation];
      [| auto].
    intros ->. cbn [negb]. auto.
  - intros r -> Hact Hb.
    cbn [incrementElevation decrementElevation]. rewrite Hact. cbn [negb].
    change (2 ^ 53)%Z with 9007199254740992%Z in Hb.
    exists (changeElevation 1 r), (changeElevation (-1) r).
    split; [reflexivity |]. split; [reflexivity |].
    split.
    { apply changeElevation_exact.
      change (2 ^ 53)%Z with 9007199254740992%Z. lia. }
    split.
    { rewrite changeElevation_exact; [lia |].
      change (2 ^ 53)%Z with 9007199254740992%Z. lia. }
    unfold same_but_pending, changeElevation, set_elevation. cbn.
    repeat split; reflexivity.
Qed.

Lemma increment_decrement_elevation_witness :
  (incrementElevation (@None (Ruler float64)) = None
   /\ decrementElevation (@None (Ruler float64)) = None)
  /\ exists r1 r2,
       incrementElevation (Some (origin_ruler (pt 0 0))) = Some r1
       /\ decrementElevation (Some (origin_ruler (pt 0 0))) = Some r2
       /\ destination_elevation_increment r1 = 1%Z
       /\ destination_elevation_increment r2 = (-1)%Z
       /\ elevation_increments r1 = [0%Z]
       /\ elevation_increments r2 = [0%Z].
Proof.
  split.
  - exact (proj1 (increment_decrement_elevation (@None (Ruler float64))) eq_refl).
  - destruct (proj2 (increment_decrement_elevation (Some (origin_ruler (pt 0 0))))
                (origin_ruler (pt 0 0)) eq_refl eq_refl eq_refl)
      as (r1 & r2 & H1 & H2 & Hd1 & Hd2 & S1 & S2).
    exists r1, r2. split; [exact H1 |]. split; [exact H2 |].
    split; [exact Hd1 |]. split; [exact Hd2 |].
    split; [exact (proj2 (proj2 (proj2 (proj2 (proj2 (proj2 S1)))))) |
            exact (proj2 (proj2 (proj2 (proj2 (proj2 (proj2 S2))))))].
Defined.

(** At 2^53 the next integer is not a double: on an active ruler whose
    pending increment is 2^53, [incrementElevation] leaves the ruler as it
    was. *)
Lemma increment_at_2_53_changes_nothing :
  active (changeElevation 9007199254740992 (origin_ruler (pt 0 0))) = true
  /\ destination_elevation_increment
       (changeElevation 9007199254740992 (origin_ruler (pt 0 0)))
     = 9007199254740992%Z
  /\ incrementElevation
       (Some (changeElevation 9007199254740992 (origin_ruler (pt 0 0))))
     = Some (changeElevation 9007199254740992 (origin_ruler (pt 0 0))).
Proof. repeat split; vm_compute; reflexivity. Qed.

(** ** Removing a waypoint when there is none *)

(** C10.  On a ruler with no elevation increment, [elevationRulerRemoveWaypoint]
    hands the host's method a ruler whose increments are still empty and
    whose pending increment is 0, everything else being as it was: the
    [pop] of the empty array is not an error and removes nothing. *)
Theorem remove_waypoint_when_empty {N Args Out : Type}
    (wrapped : Args -> Ruler N -> Out) (args : Args) (r : Ruler N) :
  elevation_increments r = [] ->
  exists r',
    elevationRulerRemoveWaypoint wrapped args r = wrapped args r'
    /\ elevation_increments r' = []
    /\ destination_elevation_increment r' = 0%Z
    /\ same_but_pending r r'.
Proof.
  intros Hempty. exists (set_elevation [] 0%Z r).
  unfold elevationRulerRemoveWaypoint. simpl. rewrite Hempty. simpl.
  unfold same_but_pending. simpl. rewrite Hempty. repeat split; reflexivity.
Qed.

Lemma remove_waypoint_when_empty_witness :
  exists r',
    elevationRulerRemoveWaypoint Ruler_removeWaypoint (pt 0 0)
      (changeElevation 1 (@idle_ruler float64))
    = Ruler_removeWaypoint (pt 0 0) r'
    /\ elevation_increments r' = []
    /\ destination_elevation_increment r' = 0%Z
    /\ same_but_pending (changeElevation 1 (@idle_ruler float64)) r'.
Proof.
  exact (remove_waypoint_when_empty Ruler_removeWaypoint (pt 0 0)
           (changeElevation 1 (@idle_ruler float64)) eq_refl).
Defined.

(** ** The guard of the original [measure] *)

Lemma no_elevation_callback_zero (a : bool) :
  no_elevation_callback a 0%Z = negb a.
Proof. destruct a; reflexivity. Qed.

Lemma reduce_zeros (n : nat) (a : bool) :
  fold_left no_elevation_callback (repeat 0%Z n) a
  = if Nat.even n then a else negb a.
Proof.
  revert a. induction n as [| n IH]; intros a.
  - reflexivity.
  - cbn [repeat fold_left]. rewrite IH, no_elevation_callback_zero.
    rewrite Nat.even_succ, <- Nat.negb_even.
    destruct (Nat.even n), a; reflexivity.
Qed.

(** The [reduce] only looks at the last increment of an array of odd
    length greater than one: an elevation change before it goes unseen. *)
Lemma no_elevation_present_despite_elevation {N : Type} (r : Ruler N) :
  no_elevation_present (set_elevation [0%Z; 3%Z; 0%Z] 0%Z r) = true.
Proof. reflexivity. Qed.

(** C2.  With no pending increment and [n] committed increments, all zero,
    the guard holds exactly when [n] is even.  After the first waypoint
    ([n = 1]) the original [measure] is therefore not called: whatever it
    would return, the call goes down the elevation path, where it throws on
    the undeclared [destination]. *)
Theorem original_measure_skipped_on_odd_length :
  (forall (N : Type) (r : Ruler N) (n : nat),
     no_elevation_present (set_elevation (repeat 0%Z n) 0%Z r) = Nat.even n)
  /\ (forall (N : Type) (num : Number N) (host : Host N) (Args : Type)
             (wrapped : Args -> World N -> Completion (list (Segment N) * World N))
             (args : Args) (r : Ruler N),
        elevationRulerMeasure wrapped args
          {| this := set_elevation [0%Z] 0%Z r; globals := no_globals |}
        = Throw (ReferenceError "destination")).
Proof.
  split.
  - intros N r n. unfold no_elevation_present. simpl.
    rewrite reduce_zeros. destruct (Nat.even n); reflexivity.
  - intros. reflexivity.
Qed.

(** ** The elevation label *)

(** C8.  [_getSegmentElevationLabel] does not build its label from its
    parameters: the number it formats is the global [segmentDistance] (and
    [totalDistance] for the total).  Where no such global exists the call
    throws; where they exist, the number shown is theirs and the elevation
    passed to the function only picks the arrow. *)
Theorem segment_elevation_label_reads_globals :
  (forall (N : Type) (num : Number N) (host : Host N)
          (segmentElevationIncrement totalElevationIncrement : N) (isTotal : bool),
     getSegmentElevationLabel no_globals
       segmentElevationIncrement totalElevationIncrement isTotal
     = Throw (ReferenceError "segmentDistance"))
  /\ (forall (N : Type) (num : Number N) (host : Host N) (g : Globals N)
             (segmentElevationIncrement totalElevationIncrement v : N),
        getSegmentElevationLabel
          {| g_destination := g_destination g; g_gridSpaces := g_gridSpaces g;
             g_elevation_increments := g_elevation_increments g;
             g_segmentDistance := Some v; g_totalDistance := g_totalDistance g |}
          segmentElevationIncrement totalElevationIncrement false
        = Normal
            ((if ltb (of_Z 0) segmentElevationIncrement then "↑"
              else if ltb segmentElevationIncrement (of_Z 0) then "↓"
              else "")
             ++ Number_toString (div (Math_round (mul v (of_Z 100))) (of_Z 100))
             ++ " " ++ gridUnits)%string).
Proof.
  split; intros; reflexivity.
Qed.

(** ** The projection on doubles *)

(** C1.  From [A = (0,0)] to [B = (3,4)] with a height of 5 the projected
    point is (7,7), at distance sqrt 98 from [A]; the slant distance is
    sqrt 50.  On the horizontal segment to (100,0) with a height of 75 the
    projected point is (100,75), at the slant distance 125. *)
Theorem slant_distance_off_axis :
  ProjectElevatedPoint (pt 0 0) (pt 3 4) (float_of_Z 5) = pt 7 7
  /\ ray_distance (newRay (pt 0 0) (ProjectElevatedPoint (pt 0 0) (pt 3 4) (float_of_Z 5)))
     = PrimFloat.sqrt (float_of_Z 98)
  /\ slant_distance (pt 0 0) (pt 3 4) (float_of_Z 5) = PrimFloat.sqrt (float_of_Z 50)
  /\ PrimFloat.eqb (PrimFloat.sqrt (float_of_Z 98)) (PrimFloat.sqrt (float_of_Z 50)) = false
  /\ ProjectElevatedPoint (pt 0 0) (pt 100 0) (float_of_Z 75) = pt 100 75
  /\ ray_distance (newRay (pt 0 0) (ProjectElevatedPoint (pt 0 0) (pt 100 0) (float_of_Z 75)))
     = float_of_Z 125
  /\ slant_distance (pt 0 0) (pt 100 0) (float_of_Z 75) = float_of_Z 125.
Proof. repeat split; vm_compute; reflexivity. Qed.

(** C3.  With [A = B = (0,0)] and a height of 0 both coordinates of the
    projected point are NaN, not those of [B].  From (0,0) to (100,0) the
    projected point is (100,0), at distance 100. *)
Theorem zero_height_at_coincident_points :
  ProjectElevatedPoint (pt 0 0) (pt 0 0) (float_of_Z 0)
  = PIXI.mkPoint PrimFloat.nan PrimFloat.nan
  /\ ProjectElevatedPoint (pt 0 0) (pt 100 0) (float_of_Z 0) = pt 100 0
  /\ ray_distance (newRay (pt 0 0) (ProjectElevatedPoint (pt 0 0) (pt 100 0) (float_of_Z 0)))
     = float_of_Z 100.
Proof. repeat split; vm_compute; reflexivity. Qed.

(** On doubles a height of 0 does not always give [B] bit for bit: a
    coordinate -0 of [B] comes back as +0. *)
Lemma zero_height_negative_zero :
  PIXI.x (ProjectElevatedPoint (pt 0 0)
            (PIXI.mkPoint (PrimFloat.opp (float_of_Z 0)) (float_of_Z 5)) (float_of_Z 0))
  = float_of_Z 0
  /\ PrimFloat.Leibniz.eqb (PrimFloat.opp (float_of_Z 0)) (float_of_Z 0) = false.
Proof. split; vm_compute; reflexivity. Qed.

(** C7.  From (0,0) to (1,1) with a height of 1 the projected point is on
    the line through [A] and [B], although the height is not 0.  From (0,0)
    to (3,4) the heights 125 and -125 give (103,79) and (-97,-71); the
    mirror image of (103,79) across the line is (47,121). *)
Theorem projection_direction_off_axis :
  PIXI.x (ProjectElevatedPoint (pt 0 0) (pt 1 1) (float_of_Z 1))
  = PIXI.y (ProjectElevatedPoint (pt 0 0) (pt 1 1) (float_of_Z 1))
  /\ cross (pt 0 0) (pt 1 1) (ProjectElevatedPoint (pt 0 0) (pt 1 1) (float_of_Z 1))
     = float_of_Z 0
  /\ ProjectElevatedPoint (pt 0 0) (pt 3 4) (float_of_Z 125) = pt 103 79
  /\ ProjectElevatedPoint (pt 0 0) (pt 3 4) (float_of_Z (-125)) = pt (-97) (-71)
  /\ mirror (pt 0 0) (pt 3 4) (pt 103 79) = pt 47 121.
Proof. repeat split; vm_compute; reflexivity. Qed.

(** ** The projection in exact arithmetic *)

Section Exact.
Local Open Scope R_scope.

Lemma sum_squares_nonneg (a b : R) : 0 <= a * a + b * b.
Proof.
  pose proof (Rle_0_sqr a) as Ha. pose proof (Rle_0_sqr b) as Hb.
  unfold Rsqr in *. lra.
Qed.

Lemma sum_squares_zero (a b : R) : a * a + b * b = 0 -> a = 0 /\ b = 0.
Proof.
  intros Hs.
  pose proof (Rle_0_sqr a) as Ha. pose proof (Rle_0_sqr b) as Hb.
  unfold Rsqr in *.
  split; apply Rsqr_0_uniq; unfold Rsqr; lra.
Qed.

Lemma length_nonzero (ax ay bx by_ : R) :
  (ax, ay) <> (bx, by_) ->
  sqrt ((by_ - ay) * (by_ - ay) + (bx - ax) * (bx - ax)) <> 0.
Proof.
  intros Hne Hs. apply sqrt_eq_0 in Hs; [| apply sum_squares_nonneg].
  apply sum_squares_zero in Hs as [Hy Hx].
  apply Hne. f_equal; lra.
Qed.

Lemma length_square (dx dy : R) :
  sqrt (dy * dy + dx * dx) * sqrt (dy * dy + dx * dx) = dy * dy + dx * dx.
Proof. apply sqrt_sqrt, sum_squares_nonneg. Qed.

(** The projected point of two distinct points. *)
Lemma ProjectElevatedPoint_distinct (ax ay bx by_ h : R) :
  (ax, ay) <> (bx, by_) ->
  ProjectElevatedPoint (rpt ax ay) (rpt bx by_) (Fin h)
  = rpt (h * (by_ - ay) / sqrt ((by_ - ay) * (by_ - ay) + (bx - ax) * (bx - ax)) + bx)
        (h * (bx - ax) / sqrt ((by_ - ay) * (by_ - ay) + (bx - ax) * (bx - ax)) + by_).
Proof.
  intros Hne. pose proof (length_nonzero Hne) as Hd.
  unfold ProjectElevatedPoint, rpt. cbn.
  change (by_ + - ay) with (by_ - ay). change (bx + - ax) with (bx - ax).
  destruct (Req_dec_T _ 0) as [Hz | _]; [contradiction |].
  reflexivity.
Qed.

(** The projected point of a point with itself: 0/0 in both coordinates. *)
Lemma ProjectElevatedPoint_coincident (ax ay h : R) :
  ProjectElevatedPoint (rpt ax ay) (rpt ax ay) (Fin h) = PIXI.mkPoint XNaN XNaN.
Proof.
  unfold ProjectElevatedPoint, rpt. cbn.
  replace (ay + - ay) with 0 by lra. replace (ax + - ax) with 0 by lra.
  replace (0 * 0 + 0 * 0) with 0 by lra. rewrite sqrt_0.
  destruct (Req_dec_T 0 0) as [_ | Hz]; [| contradiction].
  unfold Rsign_inf. rewrite Rmult_0_r.
  destruct (Rlt_dec 0 0) as [Hlt | _]; [lra |]. reflexivity.
Qed.

(** With a height of 0 the projected point of two distinct points is the
    second one. *)
Lemma ProjectElevatedPoint_zero_height (ax ay bx by_ : R) :
  (ax, ay) <> (bx, by_) ->
  ProjectElevatedPoint (rpt ax ay) (rpt bx by_) (Fin 0) = rpt bx by_.
Proof.
  intros Hne. rewrite (ProjectElevatedPoint_distinct 0 Hne).
  pose proof (length_nonzero Hne) as Hd.
  unfold rpt. f_equal; f_equal; field; exact Hd.
Qed.

Lemma projected_square_distance (dx dy h d : R) :
  d <> 0 -> d * d = dy * dy + dx * dx ->
  (h * dy / d + dx) * (h * dy / d + dx) + (h * dx / d + dy) * (h * dx / d + dy)
  = d * d + h * h + 4 * h * dx * dy / d.
Proof.
  intros Hd Hs.
  replace ((h * dy / d + dx) * (h * dy / d + dx) + (h * dx / d + dy) * (h * dx / d + dy))
    with (d * d + h * h + 4 * h * dx * dy / d
          + (h * h / (d * d) + 1) * (dy * dy + dx * dx - d * d))
    by (field; exact Hd).
  rewrite Hs. ring.
Qed.

(** With the offset turned by a right angle, [(dy, - dx)], the square of
    the distance would be that of the slant distance. *)
Lemma perpendicular_square_distance (dx dy h d : R) :
  d <> 0 -> d * d = dy * dy + dx * dx ->
  (h * dy / d + dx) * (h * dy / d + dx) + (- (h * dx / d) + dy) * (- (h * dx / d) + dy)
  = d * d + h * h.
Proof.
  intros Hd Hs.
  replace ((h * dy / d + dx) * (h * dy / d + dx)
           + (- (h * dx / d) + dy) * (- (h * dx / d) + dy))
    with (d * d + h * h + (h * h / (d * d) + 1) * (dy * dy + dx * dx - d * d))
    by (field; exact Hd).
  rewrite Hs. ring.
Qed.

(** The distance from [A] to the projected point against the slant
    distance: the two agree exactly when the height is 0 or the segment is
    horizontal or vertical. *)
Lemma projected_distance_is_slant_iff (ax ay bx by_ h : R) :
  (ax, ay) <> (bx, by_) ->
  ray_distance (newRay (rpt ax ay) (ProjectElevatedPoint (rpt ax ay) (rpt bx by_) (Fin h)))
  = slant_distance (rpt ax ay) (rpt bx by_) (Fin h)
  <-> h * (bx - ax) * (by_ - ay) = 0.
Proof.
  intros Hne. rewrite (ProjectElevatedPoint_distinct h Hne).
  pose proof (length_nonzero Hne) as Hd.
  pose proof (length_square (bx - ax) (by_ - ay)) as Hs.
  set (d := sqrt ((by_ - ay) * (by_ - ay) + (bx - ax) * (bx - ax))) in *.
  assert (Hdpos : 0 < d).
  { destruct (sqrt_pos ((by_ - ay) * (by_ - ay) + (bx - ax) * (bx - ax))) as [Hp | Hz].
    - exact Hp.
    - exfalso. apply Hd. symmetry. exact Hz. }
  unfold slant_distance, newRay, rpt. cbn.
  replace ((h * (by_ - ay) / d + bx + - ax) * (h * (by_ - ay) / d + bx + - ax)
           + (h * (bx - ax) / d + by_ + - ay) * (h * (bx - ax) / d + by_ + - ay))
    with (d * d + h * h + 4 * h * (bx - ax) * (by_ - ay) / d)
    by (rewrite <- (projected_square_distance h Hd Hs); ring).
  replace (sqrt ((bx + - ax) * (bx + - ax) + (by_ + - ay) * (by_ + - ay))) with d
    by (unfold d; f_equal; ring).
  assert (Hsum : 0 <= d * d + h * h + 4 * h * (bx - ax) * (by_ - ay) / d).
  { rewrite <- (projected_square_distance h Hd Hs). apply sum_squares_nonneg. }
  split.
  - intros Heq. injection Heq as Heq.
    apply sqrt_inj in Heq;
      [| exact Hsum | apply sum_squares_nonneg].
    assert (Hq : 4 * h * (bx - ax) * (by_ - ay) / d = 0) by lra.
    assert (Hq' : 4 * h * (bx - ax) * (by_ - ay) = 0).
    { replace (4 * h * (bx - ax) * (by_ - ay))
        with (4 * h * (bx - ax) * (by_ - ay) / d * d) by (field; exact Hd).
      rewrite Hq. ring. }
    lra.
  - intros Hz. do 2 f_equal.
    replace (4 * h * (bx - ax) * (by_ - ay)) with (4 * (h * (bx - ax) * (by_ - ay))) by ring.
    rewrite Hz. field. exact Hd.
Qed.

(** The vector to the projected point is collinear with [A -> B] exactly
    when the height is 0 or the segment is diagonal. *)
Lemma projected_collinear_iff (ax ay bx by_ h : R) :
  (ax, ay) <> (bx, by_) ->
  cross (rpt ax ay) (rpt bx by_) (ProjectElevatedPoint (rpt ax ay) (rpt bx by_) (Fin h))
  = Fin 0
  <-> h * ((bx - ax) * (bx - ax) - (by_ - ay) * (by_ - ay)) = 0.
Proof.
  intros Hne. rewrite (ProjectElevatedPoint_distinct h Hne).
  pose proof (length_nonzero Hne) as Hd.
  set (d := sqrt ((by_ - ay) * (by_ - ay) + (bx - ax) * (bx - ax))) in *.
  unfold cross, rpt. cbn.
  replace ((bx + - ax) * (h * (bx - ax) / d + by_ + - ay)
           + - ((by_ + - ay) * (h * (by_ - ay) / d + bx + - ax)))
    with (h * ((bx - ax) * (bx - ax) - (by_ - ay) * (by_ - ay)) / d)
    by (field; exact Hd).
  split.
  - intros Heq. injection Heq as Heq.
    replace (h * ((bx - ax) * (bx - ax) - (by_ - ay) * (by_ - ay)))
      with (h * ((bx - ax) * (bx - ax) - (by_ - ay) * (by_ - ay)) / d * d)
      by (field; exact Hd).
    rewrite Heq. ring.
  - intros Hz. rewrite Hz. f_equal. field. exact Hd.
Qed.

Lemma sum_squares_nonzero (ax ay bx by_ : R) :
  (ax, ay) <> (bx, by_) ->
  (bx - ax) * (bx - ax) + (by_ - ay) * (by_ - ay) <> 0.
Proof.
  intros Hne Hs. apply sum_squares_zero in Hs as [Hx Hy].
  apply Hne. f_equal; lra.
Qed.

(** The projected point for the opposite height is the mirror image across
    the line through [A] and [B] exactly when the height is 0 or the segment
    is horizontal or vertical. *)
Lemma projected_mirror_iff (ax ay bx by_ h : R) :
  (ax, ay) <> (bx, by_) ->
  mirror (rpt ax ay) (rpt bx by_) (ProjectElevatedPoint (rpt ax ay) (rpt bx by_) (Fin h))
  = ProjectElevatedPoint (rpt ax ay) (rpt bx by_) (Fin (- h))
  <-> h * (bx - ax) * (by_ - ay) = 0.
Proof.
  intros Hne. rewrite !(ProjectElevatedPoint_distinct _ Hne).
  pose proof (length_nonzero Hne) as Hd.
  pose proof (length_square (bx - ax) (by_ - ay)) as Hs.
  pose proof (sum_squares_nonzero Hne) as Hn.
  set (d := sqrt ((by_ - ay) * (by_ - ay) + (bx - ax) * (bx - ax))) in *.
  unfold mirror, rpt. cbn.
  change (by_ + - ay) with (by_ - ay). change (bx + - ax) with (bx - ax).
  destruct (Req_dec_T _ 0) as [Hz | _]; [contradiction |].
  set (dx := bx - ax) in *. set (dy := by_ - ay) in *.
  assert (Hx : 2 * (ax + ((h * dy / d + bx + - ax) * dx + (h * dx / d + by_ + - ay) * dy)
                          / (dx * dx + dy * dy) * dx)
               + - (h * dy / d + bx)
               = - h * dy / d + bx + 4 * (h * dx * dy) * dx / (d * (dx * dx + dy * dy))).
  { unfold dx, dy. field. split; [exact Hn | exact Hd]. }
  assert (Hy : 2 * (ay + ((h * dy / d + bx + - ax) * dx + (h * dx / d + by_ + - ay) * dy)
                          / (dx * dx + dy * dy) * dy)
               + - (h * dx / d + by_)
               = - h * dx / d + by_ + 4 * (h * dx * dy) * dy / (d * (dx * dx + dy * dy))).
  { unfold dx, dy. field. split; [exact Hn | exact Hd]. }
  cbn. rewrite Hx, Hy.
  assert (Hq : d * (dx * dx + dy * dy) <> 0).
  { apply Rmult_integral_contrapositive_currified; assumption. }
  split.
  - intros Heq. injection Heq as Ex Ey.
    assert (Ex' : 4 * (h * dx * dy) * dx / (d * (dx * dx + dy * dy)) = 0) by lra.
    assert (Ex'' : h * dx * dy * dx = 0).
    { replace (h * dx * dy * dx)
        with (4 * (h * dx * dy) * dx / (d * (dx * dx + dy * dy))
              * (d * (dx * dx + dy * dy)) / 4) by (field; split; assumption).
      rewrite Ex'. field. }
    apply Rmult_integral in Ex'' as [Hz | Hz]; [exact Hz |].
    rewrite Hz. ring.
  - intros Hz. rewrite Hz. f_equal; f_equal; field; split; assumption.
Qed.

End Exact.

(** ** Coincident points *)

(** C6.  The projected point of a point with itself has NaN for both
    coordinates: on doubles from (0,0) to (0,0) with a height of 50, and in
    exact arithmetic for every point and every height. *)
Theorem projection_of_coincident_points_is_NaN :
  ProjectElevatedPoint (pt 0 0) (pt 0 0) (float_of_Z 50)
  = PIXI.mkPoint PrimFloat.nan PrimFloat.nan
  /\ isNaN (PIXI.x (ProjectElevatedPoint (pt 0 0) (pt 0 0) (float_of_Z 50))) = true
  /\ isNaN (PIXI.y (ProjectElevatedPoint (pt 0 0) (pt 0 0) (float_of_Z 50))) = true
  /\ (forall ax ay h : R,
        ProjectElevatedPoint (rpt ax ay) (rpt ax ay) (Fin h) = PIXI.mkPoint XNaN XNaN).
Proof.
  split; [vm_compute; reflexivity |].
  split; [vm_compute; reflexivity |].
  split; [vm_compute; reflexivity |].
  exact ProjectElevatedPoint_coincident.
Qed.

(** ** The loops of [elevationRulerMeasure] *)

Lemma length_set_nth {T : Type} (i : nat) (v : T) (xs : list T) :
  List.length (set_nth i v xs) = List.length xs.
Proof.
  revert i. induction xs as [| a xs IH]; intros [| i]; simpl; auto.
Qed.

Lemma nth_error_set_nth_eq {T : Type} (i : nat) (v a : T) (xs : list T) :
  nth_error xs i = Some a -> nth_error (set_nth i v xs) i = Some v.
Proof.
  revert i. induction xs as [| b xs IH]; intros [| i]; simpl; try discriminate; auto.
Qed.

Lemma nth_error_set_nth_neq {T : Type} (i j : nat) (v : T) (xs : list T) :
  i <> j -> nth_error (set_nth i v xs) j = nth_error xs j.
Proof.
  revert i j. induction xs as [| b xs IH]; intros [| i] [| j] Hij; simpl; auto.
  contradiction.
Qed.

Lemma map_set_nth {T U : Type} (f : T -> U) (i : nat) (v a : T) (xs : list T) :
  nth_error xs i = Some a -> f v = f a -> map f (set_nth i v xs) = map f xs.
Proof.
  revert i. induction xs as [| b xs IH]; intros [| i]; simpl; try discriminate.
  - intros [= ->] ->. reflexivity.
  - intros Hn Hf. f_equal. eapply IH; eauto.
Qed.

Unset Implicit Arguments.

Section MeasureFacts.
Context {N : Type} `{Number N} {host : Host N}.

Lemma entries_legs_from (i : nat) (origin : PIXI.Point N) (rest : list (PIXI.Point N)) :
  combine (seq i (List.length rest)) rest
  = map (fun leg : Leg => (leg_index leg, snd leg)) (legs_from i origin rest).
Proof.
  revert i origin. induction rest as [| d rest IH]; intros i origin; simpl.
  - reflexivity.
  - f_equal. apply IH.
Qed.

Lemma entries_legs (wps : list (PIXI.Point N)) :
  entries (tl wps) = map (fun leg : Leg => (leg_index leg, snd leg)) (legs wps).
Proof.
  destruct wps as [| origin rest]; [reflexivity |].
  apply entries_legs_from.
Qed.

Lemma legs_from_origin (pre : list (PIXI.Point N)) (origin : PIXI.Point N)
    (rest : list (PIXI.Point N)) :
  Forall (fun leg : Leg =>
            nth_error (pre ++ origin :: rest) (leg_index leg) = Some (snd (fst leg)))
         (legs_from (List.length pre) origin rest).
Proof.
  revert pre origin. induction rest as [| d rest IH]; intros pre origin; simpl.
  - constructor.
  - constructor.
    + unfold leg_index. simpl.
      rewrite nth_error_app2 by lia. rewrite Nat.sub_diag. reflexivity.
    + specialize (IH (pre ++ [origin]) d).
      rewrite length_app in IH. simpl in IH.
      rewrite Nat.add_1_r in IH. rewrite <- app_assoc in IH. exact IH.
Qed.

Lemma legs_origin (wps : list (PIXI.Point N)) :
  Forall (fun leg : Leg => nth_error wps (leg_index leg) = Some (snd (fst leg)))
         (legs wps).
Proof.
  destruct wps as [| origin rest]; [constructor |].
  exact (legs_from_origin [] origin rest).
Qed.

Lemma legs_from_index_ge (i : nat) (origin : PIXI.Point N) (rest : list (PIXI.Point N))
    (leg : Leg) :
  In leg (legs_from i origin rest) -> (i <= leg_index leg)%nat.
Proof.
  revert i origin. induction rest as [| d rest IH]; intros i origin; simpl.
  - contradiction.
  - intros [<- | Hin]; [unfold leg_index; simpl; lia |].
    apply IH in Hin. lia.
Qed.

(** A leg is determined by its index. *)
Lemma legs_from_index_inj (i : nat) (origin : PIXI.Point N) (rest : list (PIXI.Point N))
    (l1 l2 : Leg) :
  In l1 (legs_from i origin rest) -> In l2 (legs_from i origin rest) ->
  leg_index l1 = leg_index l2 -> l1 = l2.
Proof.
  revert i origin. induction rest as [| d rest IH]; intros i origin; simpl.
  - contradiction.
  - intros [<- | H1] [<- | H2] Heq.
    + reflexivity.
    + apply legs_from_index_ge in H2. unfold leg_index in *. simpl in *. lia.
    + apply legs_from_index_ge in H1. unfold leg_index in *. simpl in *. lia.
    + eapply IH; eauto.
Qed.

Lemma legs_index_inj (wps : list (PIXI.Point N)) (l1 l2 : Leg) :
  In l1 (legs wps) -> In l2 (legs wps) -> leg_index l1 = leg_index l2 -> l1 = l2.
Proof.
  destruct wps as [| origin rest]; [contradiction |].
  apply legs_from_index_inj.
Qed.

Lemma leg_suppressed_ext (r r' : Ruler N) (leg : Leg) :
  elevation_increments r' = elevation_increments r ->
  leg_suppressed r' leg = leg_suppressed r leg.
Proof.
  intros He. unfold leg_suppressed, leg_ray_elevated, elevation_at.
  rewrite He. reflexivity.
Qed.

Lemma label_ref_ext (r r' : Ruler N) (i : nat) :
  List.length (labels r') = List.length (labels r) ->
  label_ref r' i = label_ref r i.
Proof. intros Hl. unfold label_ref. rewrite Hl. reflexivity. Qed.

Lemma update_label_elevation (f : Label N -> Label N) (l : option nat) (r : Ruler N) :
  elevation_increments (update_label f l r) = elevation_increments r.
Proof.
  unfold update_label. destruct l as [i |]; [| reflexivity].
  destruct (nth_error (labels r) i); reflexivity.
Qed.

Lemma update_label_length (f : Label N -> Label N) (l : option nat) (r : Ruler N) :
  List.length (labels (update_label f l r)) = List.length (labels r).
Proof.
  unfold update_label. destruct l as [i |]; [| reflexivity].
  destruct (nth_error (labels r) i); [| reflexivity].
  simpl. apply length_set_nth.
Qed.

Lemma update_label_other (f : Label N -> Label N) (l : option nat) (r : Ruler N) (j : nat) :
  l <> Some j ->
  nth_error (labels (update_label f l r)) j = nth_error (labels r) j.
Proof.
  intros Hl. unfold update_label. destruct l as [i |]; [| reflexivity].
  destruct (nth_error (labels r) i); [| reflexivity].
  simpl. apply nth_error_set_nth_neq. congruence.
Qed.

Lemma update_label_same (f : Label N -> Label N) (r : Ruler N) (i : nat) (lb : Label N) :
  nth_error (labels r) i = Some lb ->
  nth_error (labels (update_label f (label_ref r i) r)) i = Some (f lb).
Proof.
  intros Hn. unfold label_ref.
  assert (Hlt : (i < List.length (labels r))%nat).
  { apply nth_error_Some. congruence. }
  apply Nat.ltb_lt in Hlt. rewrite Hlt. unfold update_label. rewrite Hn.
  simpl. eapply nth_error_set_nth_eq. exact Hn.
Qed.

Lemma update_label_ruler (f : Label N -> Label N) (l : option nat) (r : Ruler N) :
  ruler (update_label f l r) = ruler r /\ highlight (update_label f l r) = highlight r.
Proof.
  unfold update_label. destruct l as [i |]; [| auto].
  destruct (nth_error (labels r) i); auto.
Qed.

Lemma segment_body_leg (wps : list (PIXI.Point N)) (r : Ruler N)
    (segs : list (Segment N)) (esegs : list (ElevationSegment N)) (leg : Leg) :
  nth_error wps (leg_index leg) = Some (snd (fst leg)) ->
  segment_body wps (r, segs, esegs) (leg_index leg, snd leg)
  = if leg_suppressed r leg
    then Normal (update_label (set_label_visible false) (label_ref r (leg_index leg)) r,
                 segs, esegs)
    else Normal (r, push segs (leg_segment r leg),
                 push esegs (leg_elevation_segment r leg)).
Proof.
  intros Hn. unfold segment_body. rewrite Hn. reflexivity.
Qed.

Lemma label_ref_cases (r : Ruler N) (i j : nat) :
  i <> j -> label_ref r i <> Some j.
Proof.
  intros Hij. unfold label_ref.
  destruct (i <? List.length (labels r))%nat; congruence.
Qed.

(** The first loop: it keeps the legs that are not suppressed, in order,
    and only ever hides labels. *)
Lemma first_loop (wps : list (PIXI.Point N)) (r0 : Ruler N) (ls : list Leg) :
  Forall (fun leg : Leg => nth_error wps (leg_index leg) = Some (snd (fst leg))) ls ->
  forall (r : Ruler N) (segs : list (Segment N)) (esegs : list (ElevationSegment N)),
    elevation_increments r = elevation_increments r0 ->
    List.length (labels r) = List.length (labels r0) ->
    exists r',
      forOf (segment_body wps) (map (fun leg : Leg => (leg_index leg, snd leg)) ls)
            (r, segs, esegs)
      = Normal (r',
                segs ++ map (leg_segment r0)
                            (filter (fun leg => negb (leg_suppressed r0 leg)) ls),
                esegs ++ map (leg_elevation_segment r0)
                             (filter (fun leg => negb (leg_suppressed r0 leg)) ls))
      /\ elevation_increments r' = elevation_increments r0
      /\ List.length (labels r') = List.length (labels r0)
      /\ forall i lb,
           nth_error (labels r) i = Some lb ->
           exists lb',
             nth_error (labels r') i = Some lb'
             /\ (label_visible lb = false -> label_visible lb' = false)
             /\ ((exists leg, In leg ls /\ leg_index leg = i
                              /\ leg_suppressed r0 leg = true) ->
                 label_visible lb' = false).
Proof.
  induction 1 as [| leg ls Hleg Hls IH]; intros r segs esegs He Hl.
  - exists r. simpl. rewrite !app_nil_r. repeat split; auto.
    intros i lb Hi. exists lb. repeat split; auto.
    intros (leg & [] & _).
  - cbn [map forOf]. rewrite (segment_body_leg wps r segs esegs leg Hleg).
    rewrite (leg_suppressed_ext r0 r leg He).
    cbn [filter]. destruct (leg_suppressed r0 leg) eqn:Hsup; cbn [negb bind].
    + destruct (IH (update_label (set_label_visible false)
                                 (label_ref r (leg_index leg)) r) segs esegs)
        as (r' & Hrun & He' & Hl' & Hlab).
      { rewrite update_label_elevation. exact He. }
      { rewrite update_label_length. exact Hl. }
      exists r'. split; [exact Hrun |]. split; [exact He' |]. split; [exact Hl' |].
      intros i lb Hi.
      destruct (Nat.eq_dec (leg_index leg) i) as [Heq | Hne].
      * subst i.
        destruct (Hlab (leg_index leg) (set_label_visible false lb))
          as (lb' & Hn' & Hkeep & _).
        { apply update_label_same. exact Hi. }
        exists lb'. split; [exact Hn' |].
        split; intros _; apply Hkeep; reflexivity.
      * destruct (Hlab i lb) as (lb' & Hn' & Hkeep & Hhid).
        { rewrite update_label_other; [exact Hi |].
          apply label_ref_cases. exact Hne. }
        exists lb'. split; [exact Hn' |]. split; [exact Hkeep |].
        intros (leg' & [<- | Hin] & Hidx & Hs); [contradiction |].
        apply Hhid. exists leg'. auto.
    + destruct (IH r (push segs (leg_segment r leg))
                   (push esegs (leg_elevation_segment r leg)) He Hl)
        as (r' & Hrun & He' & Hl' & Hlab).
      exists r'. split.
      { rewrite Hrun. unfold push. cbn [map]. rewrite <- !app_assoc. cbn [app].
        unfold leg_segment, leg_elevation_segment, leg_ray_elevated, elevation_at.
        rewrite (label_ref_ext r0 r _ Hl), He. reflexivity. }
      split; [exact He' |]. split; [exact Hl' |].
      intros i lb Hi. destruct (Hlab i lb Hi) as (lb' & Hn' & Hkeep & Hhid).
      exists lb'. split; [exact Hn' |]. split; [exact Hkeep |].
      intros (leg' & [<- | Hin] & Hidx & Hs); [congruence |].
      apply Hhid. exists leg'. auto.
Qed.

(** The second loop fills in [last], [distance] and [text]: the rays and the
    labels of the segments stay. *)
Lemma second_loop (r : Ruler N) (g : Globals N) (es : list (nat * N)) :
  forall (segs : list (Segment N)) (td te : N) (out : list (Segment N) * N * N),
    forOf (distance_body r g) es (segs, td, te) = Normal out ->
    map seg_ray (fst (fst out)) = map seg_ray segs
    /\ map seg_label (fst (fst out)) = map seg_label segs.
Proof.
  induction es as [| [i d] es IH]; intros segs td te out Hrun.
  - simpl in Hrun. injection Hrun as <-. auto.
  - cbn [forOf] in Hrun. unfold distance_body at 1 in Hrun.
    destruct (nth_error segs i) as [s |] eqn:Hs; [| discriminate].
    cbn [bind] in Hrun.
    destruct (g_elevation_increments g) as [incs |]; [| discriminate].
    cbn [getGlobal bind] in Hrun.
    destruct (loose_neq_0 (nth_error incs (i + 1))).
    + destruct (getSegmentElevationLabel g _ _ _) as [t |]; [| discriminate].
      cbn [bind] in Hrun. apply IH in Hrun as [Hr Hl].
      rewrite Hr, Hl. split; eapply map_set_nth; eauto.
    + cbn [bind] in Hrun. apply IH in Hrun as [Hr Hl].
      rewrite Hr, Hl. split; eapply map_set_nth; eauto.
Qed.

(** The drawing loop: two lines and a highlight per segment, and no label
    touched but those of the segments. *)
Lemma draw_segments (segs : list (Segment N)) :
  forall r : Ruler N,
    ruler (fold_left draw_segment segs r)
    = (ruler r ++ flat_map (fun s => segment_lines (seg_ray s)) segs)%list
    /\ highlight (fold_left draw_segment segs r) = (highlight r ++ map seg_ray segs)%list
    /\ forall j, ~ In (Some j) (map seg_label segs) ->
         nth_error (labels (fold_left draw_segment segs r)) j = nth_error (labels r) j.
Proof.
  induction segs as [| s segs IH]; intros r.
  - simpl. rewrite !app_nil_r. auto.
  - cbn [fold_left flat_map map]. destruct (IH (draw_segment r s)) as (Hr & Hh & Hl).
    rewrite Hr, Hh. unfold draw_segment at 1 3. cbn.
    match goal with
    | |- context [update_label ?f ?l ?x] =>
        destruct (update_label_ruler f l x) as [Hur Huh]; rewrite Hur, Huh
    end.
    cbn. rewrite <- !app_assoc. repeat split; try reflexivity.
    intros j Hj. rewrite Hl by (intros Hin; apply Hj; right; exact Hin).
    unfold draw_segment. cbn. rewrite update_label_other; [reflexivity |].
    intros Heq. apply Hj. left. exact Heq.
Qed.

Lemma draw_endpoints (wps : list (PIXI.Point N)) :
  forall r : Ruler N,
    ruler (fold_left draw_endpoint wps r)
    = (ruler r ++ map (fun p => Circle p 8) wps)%list
    /\ highlight (fold_left draw_endpoint wps r) = highlight r
    /\ labels (fold_left draw_endpoint wps r) = labels r.
Proof.
  induction wps as [| p wps IH]; intros r.
  - simpl. rewrite app_nil_r. auto.
  - cbn [fold_left map]. destruct (IH (draw_endpoint r p)) as (Hr & Hh & Hl).
    rewrite Hr, Hh, Hl. cbn. rewrite <- app_assoc. auto.
Qed.

End MeasureFacts.

(** ** Suppressed segments *)

Lemma flat_map_of_map {T U V : Type} (f : U -> list V) (g : T -> U) (xs : list T) :
  flat_map f (map g xs) = flat_map (fun x => f (g x)) xs.
Proof.
  induction xs as [| a xs IH]; simpl; [reflexivity |]. rewrite IH. reflexivity.
Qed.

Section Suppression.
Context {N : Type} `{Number N} {host : Host N} {Args : Type}.

Lemma suppressed_not_kept (r : Ruler N) (wps : list (PIXI.Point N)) (leg : Leg) :
  In leg (legs wps) -> leg_suppressed r leg = true ->
  ~ In (Some (leg_index leg))
       (map seg_label (map (leg_segment r) (kept_legs r wps))).
Proof.
  intros Hin Hsup Hk. rewrite map_map in Hk. apply in_map_iff in Hk.
  destruct Hk as (leg' & Hlab & Hin').
  unfold kept_legs in Hin'. apply filter_In in Hin' as [Hin' Hkeep].
  unfold leg_segment in Hlab. cbn in Hlab.
  assert (Hidx : leg_index leg' = leg_index leg).
  { unfold label_ref in Hlab.
    destruct (leg_index leg' <? List.length (labels r))%nat; congruence. }
  rewrite (legs_index_inj wps leg' leg Hin' Hin Hidx) in Hkeep.
  rewrite Hsup in Hkeep. discriminate.
Qed.

(** The first loop on its own: it always runs to its end. *)
Lemma first_loop_leaves_out_suppressed (wps : list (PIXI.Point N)) (r : Ruler N) :
  exists r',
    forOf (segment_body wps) (entries (tl wps)) (r, [], [])
    = Normal (r',
              map (leg_segment r) (kept_legs r wps),
              map (leg_elevation_segment r) (kept_legs r wps))
    /\ forall leg lb,
         In leg (legs wps) ->
         leg_suppressed r leg = true ->
         nth_error (labels r) (leg_index leg) = Some lb ->
         exists lb',
           nth_error (labels r') (leg_index leg) = Some lb'
           /\ label_visible lb' = false.
Proof.
  destruct (first_loop wps r (legs wps) (legs_origin wps) r [] [] eq_refl eq_refl)
    as (r' & Hloop & _ & _ & Hlab).
  exists r'. split.
  - rewrite entries_legs. exact Hloop.
  - intros leg lb Hin Hsup Hn.
    destruct (Hlab (leg_index leg) lb Hn) as (lb' & Hn' & _ & Hhid).
    exists lb'. split; [exact Hn' |]. apply Hhid. exists leg. auto.
Qed.

(** The whole call, when it returns from the elevation path. *)
Lemma measure_leaves_out_suppressed
    (wrapped : Args -> World N -> Completion (list (Segment N) * World N))
    (args : Args) (w : World N) (segments : list (Segment N)) (w' : World N) :
  no_elevation_present (this w) = false ->
  elevationRulerMeasure wrapped args w = Normal (segments, w') ->
  exists destination gridSpaces distances,
    g_destination (globals w) = Some destination
    /\ g_gridSpaces (globals w) = Some gridSpaces
    /\ measureDistances
         (map (leg_elevation_segment (this w))
              (kept_legs (this w)
                 (waypoints (this w)
                  ++ [getCenter (PIXI.x destination) (PIXI.y destination)])))
         gridSpaces
       = Normal distances
    /\ map seg_ray segments
       = map leg_ray
             (kept_legs (this w)
                (waypoints (this w)
                 ++ [getCenter (PIXI.x destination) (PIXI.y destination)]))
    /\ ruler (this w')
       = flat_map (fun leg => segment_lines (leg_ray leg))
                  (kept_legs (this w)
                     (waypoints (this w)
                      ++ [getCenter (PIXI.x destination) (PIXI.y destination)]))
         ++ map (fun p => Circle p 8)
                (waypoints (this w)
                 ++ [getCenter (PIXI.x destination) (PIXI.y destination)])
    /\ highlight (this w')
       = map leg_ray
             (kept_legs (this w)
                (waypoints (this w)
                 ++ [getCenter (PIXI.x destination) (PIXI.y destination)]))
    /\ forall leg lb,
         In leg (legs (waypoints (this w)
                       ++ [getCenter (PIXI.x destination) (PIXI.y destination)])) ->
         leg_suppressed (this w) leg = true ->
         nth_error (labels (this w)) (leg_index leg) = Some lb ->
         exists lb',
           nth_error (labels (this w')) (leg_index leg) = Some lb'
           /\ label_visible lb' = false.
Proof.
  intros Hno Hrun. unfold elevationRulerMeasure in Hrun. rewrite Hno in Hrun.
  destruct (g_destination (globals w)) as [destination |] eqn:Hdest;
    [| discriminate].
  cbn [getGlobal bind] in Hrun.
  set (snapped := getCenter (PIXI.x destination) (PIXI.y destination)) in *.
  set (wps := (waypoints (this w) ++ [snapped])%list) in *.
  destruct (first_loop wps (this w) (legs wps) (legs_origin wps)
              (set_destination snapped (this w)) [] [] eq_refl eq_refl)
    as (r1 & Hloop & He1 & Hl1 & Hlab1).
  rewrite entries_legs, Hloop in Hrun. cbn [bind app] in Hrun.
  cbn [set_g_destination g_gridSpaces] in Hrun.
  destruct (g_gridSpaces (globals w)) as [gridSpaces |] eqn:Hgs; [| discriminate].
  cbn [getGlobal bind] in Hrun.
  fold (kept_legs (this w) wps) in Hrun.
  destruct (measureDistances _ gridSpaces) as [distances |] eqn:Hmeasure;
    [| discriminate].
  cbn [bind] in Hrun.
  destruct (forOf _ (entries distances) _) as [[[segs2 td] te] |] eqn:Hloop2;
    [| discriminate].
  cbn [bind] in Hrun. injection Hrun as <- <-.
  apply second_loop in Hloop2 as [Hrays Hlabels]. cbn [fst] in Hrays, Hlabels.
  exists destination, gridSpaces, distances.
  split; [reflexivity |]. split; [reflexivity |]. split; [exact Hmeasure |].
  assert (Hkept_rays : map seg_ray (map (leg_segment (this w)) (kept_legs (this w) wps))
                       = map leg_ray (kept_legs (this w) wps)).
  { rewrite map_map. reflexivity. }
  destruct (draw_endpoints wps (fold_left draw_segment segs2 (set_drawing [] [] r1)))
    as (Hr_e & Hh_e & Hl_e).
  destruct (draw_segments segs2 (set_drawing [] [] r1)) as (Hr_s & Hh_s & Hl_s).
  cbn [this].
  split; [rewrite Hrays; exact Hkept_rays |].
  split.
  { rewrite Hr_e, Hr_s. cbn [ruler set_drawing app]. f_equal.
    rewrite <- (flat_map_of_map segment_lines seg_ray segs2).
    rewrite <- (flat_map_of_map segment_lines leg_ray (kept_legs (this w) wps)).
    rewrite Hrays, Hkept_rays. reflexivity. }
  split.
  { rewrite Hh_e, Hh_s. cbn [highlight set_drawing app].
    rewrite Hrays. exact Hkept_rays. }
  intros leg lb Hin Hsup Hn.
  destruct (Hlab1 (leg_index leg) lb Hn) as (lb' & Hn' & _ & Hhid).
  exists lb'. split.
  - rewrite Hl_e, Hl_s; [exact Hn' |].
    rewrite Hlabels. apply suppressed_not_kept; assumption.
  - apply Hhid. exists leg. auto.
Qed.

(** X25.  The test of the first loop, [ray_elevated.distance < 10] on the
    distance the code computes (NaN included), decides alone: the loop runs
    over every leg of the path; a leg that passes the test gets its label,
    where it has one, made invisible and is pushed on neither [segments] nor
    [elevation_segments]; every other leg, before or after it, is pushed on
    both, in order.  Whenever the call then returns from the elevation path,
    the legs that passed the test are absent from what was measured, from
    what is returned, drawn and highlighted, and their labels are
    invisible. *)
Theorem suppressed_segments_are_left_out
    (wrapped : Args -> World N -> Completion (list (Segment N) * World N))
    (args : Args) :
  (forall (wps : list (PIXI.Point N)) (r : Ruler N),
     exists r',
       forOf (segment_body wps) (entries (tl wps)) (r, [], [])
       = Normal (r',
                 map (leg_segment r) (kept_legs r wps),
                 map (leg_elevation_segment r) (kept_legs r wps))
       /\ forall leg lb,
            In leg (legs wps) ->
            leg_suppressed r leg = true ->
            nth_error (labels r) (leg_index leg) = Some lb ->
            exists lb',
              nth_error (labels r') (leg_index leg) = Some lb'
              /\ label_visible lb' = false)
  /\ (forall (w : World N) (segments : list (Segment N)) (w' : World N),
       no_elevation_present (this w) = false ->
       elevationRulerMeasure wrapped args w = Normal (segments, w') ->
       exists destination gridSpaces distances,
         g_destination (globals w) = Some destination
         /\ g_gridSpaces (globals w) = Some gridSpaces
         /\ measureDistances
              (map (leg_elevation_segment (this w))
                   (kept_legs (this w)
                      (waypoints (this w)
                       ++ [getCenter (PIXI.x destination) (PIXI.y destination)])))
              gridSpaces
            = Normal distances
         /\ map seg_ray segments
            = map leg_ray
                  (kept_legs (this w)
                     (waypoints (this w)
                      ++ [getCenter (PIXI.x destination) (PIXI.y destination)]))
         /\ ruler (this w')
            = flat_map (fun leg => segment_lines (leg_ray leg))
                       (kept_legs (this w)
                          (waypoints (this w)
                           ++ [getCenter (PIXI.x destination) (PIXI.y destination)]))
              ++ map (fun p => Circle p 8)
                     (waypoints (this w)
                      ++ [getCenter (PIXI.x destination) (PIXI.y destination)])
         /\ highlight (this w')
            = map leg_ray
                  (kept_legs (this w)
                     (waypoints (this w)
                      ++ [getCenter (PIXI.x destination) (PIXI.y destination)]))
         /\ forall leg lb,
              In leg (legs (waypoints (this w)
                            ++ [getCenter (PIXI.x destination) (PIXI.y destination)])) ->
              leg_suppressed (this w) leg = true ->
              nth_error (labels (this w)) (leg_index leg) = Some lb ->
              exists lb',
                nth_error (labels (this w')) (leg_index leg) = Some lb'
                /\ label_visible lb' = false).
Proof.
  split.
  - exact first_loop_leaves_out_suppressed.
  - exact (measure_leaves_out_suppressed wrapped args).
Qed.

End Suppression.

Lemma suppressed_segments_are_left_out_witness :
  no_elevation_present (this short_leg_world) = false
  /\ map seg_ray
         (fst (returned (elevationRulerMeasure (host := gridless) Ruler_measure tt
                           short_leg_world)
                        ([], short_leg_world)))
     = [newRay (pt 3 4) (pt 100 0)]
  /\ leg_suppressed (host := gridless) (this short_leg_world) (0%nat, pt 0 0, pt 3 4) = true
  /\ exists lb',
       nth_error
         (labels (this (snd (returned (elevationRulerMeasure (host := gridless)
                                         Ruler_measure tt short_leg_world)
                                      ([], short_leg_world)))))
         0
       = Some lb'
       /\ label_visible lb' = false.
Proof.
  assert (Hno : no_elevation_present (this short_leg_world) = false)
    by (vm_compute; reflexivity).
  assert (Hrun : elevationRulerMeasure (host := gridless) Ruler_measure tt short_leg_world
                 = Normal
                     (fst (returned (elevationRulerMeasure (host := gridless)
                                       Ruler_measure tt short_leg_world)
                                    ([], short_leg_world)),
                      snd (returned (elevationRulerMeasure (host := gridless)
                                       Ruler_measure tt short_leg_world)
                                    ([], short_leg_world))))
    by (vm_compute; reflexivity).
  destruct (proj2 (suppressed_segments_are_left_out (host := gridless)
                     Ruler_measure tt) short_leg_world _ _ Hno Hrun)
    as (destination & gridSpaces & distances & Hd & Hg & Hm & Hrays & Hdrawn & Hhl & Hhidden).
  split; [exact Hno |].
  split; [vm_compute; reflexivity |].
  split; [vm_compute; reflexivity |].
  injection Hd as <-.
  apply (Hhidden (0%nat, pt 0 0, pt 3 4) fresh_label).
  - left. reflexivity.
  - vm_compute. reflexivity.
  - reflexivity.
Defined.

(** The leg of a waypoint to itself has length 0, but its projected ray has
    length NaN, which is not below 10: the loop does not suppress it. *)
Lemma zero_length_leg_is_not_suppressed :
  ray_distance (leg_ray (0%nat, pt 0 0, pt 0 0)) = float_of_Z 0
  /\ isNaN (ray_distance
              (leg_ray_elevated (host := gridless) (origin_ruler (pt 0 0))
                                (0%nat, pt 0 0, pt 0 0))) = true
  /\ leg_suppressed (host := gridless) (origin_ruler (pt 0 0)) (0%nat, pt 0 0, pt 0 0)
     = false.
Proof. repeat split; vm_compute; reflexivity. Qed.

(** * Further properties *)

(** ** The guard of the original [measure], in general *)

Lemma reduce_snoc (l : list Z) (b : Z) (a : bool) :
  fold_left no_elevation_callback (l ++ [b]) a
  = no_elevation_callback (fold_left no_elevation_callback l a) b.
Proof. rewrite fold_left_app. reflexivity. Qed.

Lemma trailing_zeros_snoc (l : list Z) (b : Z) :
  trailing_zeros (l ++ [b])
  = if (b =? 0)%Z then S (trailing_zeros l) else 0%nat.
Proof.
  unfold trailing_zeros. rewrite rev_app_distr. cbn [rev app].
  destruct b; reflexivity.
Qed.

Lemma reduce_from_false (l : list Z) :
  fold_left no_elevation_callback l false = Nat.odd (trailing_zeros l).
Proof.
  induction l as [| b l IH] using rev_ind.
  - reflexivity.
  - rewrite reduce_snoc, trailing_zeros_snoc, IH.
    unfold no_elevation_callback.
    destruct (b =? 0)%Z.
    + rewrite Nat.odd_succ, <- Nat.negb_odd.
      destruct (Nat.odd (trailing_zeros l)); reflexivity.
    + rewrite andb_false_r. reflexivity.
Qed.

(** X1.  The original [measure] is called exactly when there is no pending
    increment and either no increment is committed or the committed
    increments after the first end in an odd number of zeros.  The first
    increment and everything before the last non-zero increment are never
    looked at. *)
Theorem no_elevation_present_parity {N : Type} (r : Ruler N) :
  no_elevation_present r
  = ((destination_elevation_increment r =? 0)%Z
     && match elevation_increments r with
        | [] => true
        | _ :: rest => Nat.odd (trailing_zeros rest)
        end)%bool.
Proof.
  unfold no_elevation_present. f_equal.
  destruct (elevation_increments r) as [| z rest]; [reflexivity |].
  cbn [fold_left].
  replace (no_elevation_callback true z) with false
    by (unfold no_elevation_callback; reflexivity).
  apply reduce_from_false.
Qed.

(** ** Sessions and the guard *)

Lemma all_zero_repeat (l : list Z) :
  Forall (fun z => z = 0%Z) l -> l = repeat 0%Z (List.length l).
Proof.
  induction 1 as [| z l Hz Hl IH]; simpl; [reflexivity |].
  rewrite Hz, <- IH. reflexivity.
Qed.

Section SessionGuard.
Context {N : Type} {Args : Type} {num : Number N} {host : Host N}.
Variables host_clear host_addWaypoint host_removeWaypoint : Args -> Ruler N -> Ruler N.

Hypothesis clear_keeps : keeps_elevation host_clear.
Hypothesis add_keeps : keeps_elevation host_addWaypoint.
Hypothesis remove_keeps : keeps_elevation host_removeWaypoint.
Hypothesis clear_waypoints :
  forall a r, waypoints (host_clear a r) = [].
Hypothesis add_waypoints :
  forall a r, List.length (waypoints (host_addWaypoint a r)) = S (List.length (waypoints r)).
Hypothesis remove_waypoints :
  forall a r, List.length (waypoints (host_removeWaypoint a r)) = pred (List.length (waypoints r)).

#[local] Abbreviation session a0 r0 ts :=
  (run host_addWaypoint host_removeWaypoint ts (elevationRulerClear host_clear a0 r0)).

Lemma session_guard (a0 : Args) (r0 : Ruler N) (ts : list (Transition Args)) :
  no_elevation_present (session a0 r0 ts)
  = Nat.even (List.length (waypoints (session a0 r0 ts))).
Proof.
  destruct (session_inv_run add_keeps remove_keeps add_waypoints remove_waypoints ts
              (session_inv_clear clear_keeps clear_waypoints a0 r0))
    as (Hlen & Hall & Hd).
  unfold no_elevation_present. rewrite Hd, <- Hlen.
  rewrite (all_zero_repeat _ Hall) at 1. rewrite reduce_zeros.
  destruct (Nat.even _); reflexivity.
Qed.

(** X2.  In a session that only adds and removes waypoints, without any
    elevation, the guard of the original [measure] holds exactly when the
    number of committed waypoints is even.  With an even number a measure is
    the host's; with an odd number, on a page that has no global
    [destination], a measure throws a [ReferenceError]. *)
Theorem session_measure_by_parity
    (a0 : Args) (r0 : Ruler N) (ts : list (Transition Args)) :
  no_elevation_present (session a0 r0 ts)
  = Nat.even (List.length (waypoints (session a0 r0 ts)))
  /\ (forall (MeasureArgs : Type)
             (wrapped : MeasureArgs -> World N -> Completion (list (Segment N) * World N))
             (args : MeasureArgs) (g : Globals N),
        (Nat.even (List.length (waypoints (session a0 r0 ts))) = true ->
         elevationRulerMeasure wrapped args {| this := session a0 r0 ts; globals := g |}
         = wrapped args {| this := session a0 r0 ts; globals := g |})
        /\ (Nat.even (List.length (waypoints (session a0 r0 ts))) = false ->
            g_destination g = None ->
            elevationRulerMeasure wrapped args {| this := session a0 r0 ts; globals := g |}
            = Throw (ReferenceError "destination"))).
Proof.
  split; [apply session_guard |].
  intros MeasureArgs wrapped args g.
  unfold elevationRulerMeasure. cbn [this globals].
  rewrite session_guard.
  split; intros Heven; rewrite Heven; [reflexivity |].
  intros Hg. rewrite Hg. reflexivity.
Qed.

(** X4.  Adding a waypoint and removing it again gives back the committed
    increments, whatever the pending increment was; the pending increment
    itself is lost. *)
Theorem add_then_remove_restores_increments (a b : Args) (r : Ruler N) :
  elevation_increments
    (step host_addWaypoint host_removeWaypoint
          (step host_addWaypoint host_removeWaypoint r (AddWaypoint a))
          (RemoveWaypoint b))
  = elevation_increments r
  /\ destination_elevation_increment
       (step host_addWaypoint host_removeWaypoint
             (step host_addWaypoint host_removeWaypoint r (AddWaypoint a))
             (RemoveWaypoint b))
     = 0%Z.
Proof.
  destruct (remove_step host_addWaypoint remove_keeps b
              (step host_addWaypoint host_removeWaypoint r (AddWaypoint a)))
    as [Hi Hd].
  destruct (add_step host_removeWaypoint add_keeps a r) as [Hi' _].
  rewrite Hi, Hd, Hi'. split; [apply removelast_last | reflexivity].
Qed.

Lemma sum_snoc (l : list Z) (d : Z) :
  fold_right Z.add 0%Z (l ++ [d]) = (fold_right Z.add 0 l + d)%Z.
Proof. induction l as [| z l IH]; simpl; lia. Qed.

(** X5.  Adding a waypoint moves the pending increment into the committed
    ones: the total of the committed and pending increments is unchanged. *)
Theorem add_waypoint_keeps_total (a : Args) (r : Ruler N) :
  total_increment (step host_addWaypoint host_removeWaypoint r (AddWaypoint a))
  = total_increment r.
Proof.
  unfold total_increment.
  destruct (add_step host_removeWaypoint add_keeps a r) as [Hi Hd].
  rewrite Hi, Hd, sum_snoc. lia.
Qed.

End SessionGuard.

(** ** Increment and decrement *)

Lemma changeElevation_inverse {N : Type} (d : Z) (r : Ruler N) :
  (Z.abs (destination_elevation_increment r) <= 2 ^ 53)%Z ->
  (Z.abs (destination_elevation_increment r + d) <= 2 ^ 53)%Z ->
  changeElevation (- d) (changeElevation d r) = r.
Proof.
  intros Hr Hd. destruct r as [w de l a g h incs pending].
  unfold changeElevation, set_elevation in *.
  cbn [waypoints destination labels active ruler highlight elevation_increments
       destination_elevation_increment] in *.
  f_equal. rewrite (to_double_exact _ Hd).
  replace (pending + d + - d)%Z with pending by lia.
  apply to_double_exact, Hr.
Qed.

(** X3.  On a ruler whose pending increment is below 2^53 in absolute value,
    one increment and one decrement, in either order, leave the canvas ruler
    exactly as it was, whether it is absent, inactive or active. *)
Theorem increment_decrement_round_trip {N : Type} (c : option (Ruler N)) :
  (forall r, c = Some r ->
             (Z.abs (destination_elevation_increment r) < 2 ^ 53)%Z) ->
  decrementElevation (incrementElevation c) = c
  /\ incrementElevation (decrementElevation c) = c.
Proof.
  intros Hbound. destruct c as [r |]; [| split; reflexivity].
  specialize (Hbound r eq_refl).
  change (2 ^ 53)%Z with 9007199254740992%Z in Hbound.
  unfold incrementElevation, decrementElevation.
  destruct (active r) eqn:Hact; cbn [negb].
  - assert (H1 : active (changeElevation 1 r) = true) by exact Hact.
    assert (H2 : active (changeElevation (-1) r) = true) by exact Hact.
    rewrite H1, H2. cbn [negb]. split; f_equal.
    + apply (changeElevation_inverse 1 r);
        change (2 ^ 53)%Z with 9007199254740992%Z; lia.
    + apply (changeElevation_inverse (-1) r);
        change (2 ^ 53)%Z with 9007199254740992%Z; lia.
  - rewrite Hact. split; reflexivity.
Qed.

Lemma increment_decrement_round_trip_witness :
  decrementElevation (incrementElevation (Some (origin_ruler (pt 0 0))))
  = Some (origin_ruler (pt 0 0))
  /\ incrementElevation (decrementElevation (Some (origin_ruler (pt 0 0))))
     = Some (origin_ruler (pt 0 0)).
Proof.
  apply (increment_decrement_round_trip (Some (origin_ruler (pt 0 0)))).
  intros r [= <-]. reflexivity.
Defined.

(** From 2^53 the round trip fails: the increment changes nothing and the
    decrement then gives 2^53 - 1. *)
Lemma round_trip_from_2_53 :
  option_map (@destination_elevation_increment float64)
    (decrementElevation
       (incrementElevation
          (Some (changeElevation 9007199254740992 (origin_ruler (pt 0 0))))))
  = Some 9007199254740991%Z.
Proof. vm_compute. reflexivity. Qed.

(** ** What a call of [elevationRulerMeasure] changes *)

Section MeasureFrame.
Context {N : Type} `{Number N} {host : Host N} {Args : Type}.

Lemma kept_refl (r : Ruler N) : kept_but_drawing r r.
Proof. unfold kept_but_drawing. repeat split; reflexivity. Qed.

Lemma kept_trans (r1 r2 r3 : Ruler N) :
  kept_but_drawing r1 r2 -> kept_but_drawing r2 r3 -> kept_but_drawing r1 r3.
Proof.
  unfold kept_but_drawing.
  intros (A1 & A2 & A3 & A4 & A5 & A6) (B1 & B2 & B3 & B4 & B5 & B6).
  repeat split; congruence.
Qed.

Lemma kept_update_label (f : Label N -> Label N) (l : option nat) (r : Ruler N) :
  kept_but_drawing r (update_label f l r).
Proof.
  unfold kept_but_drawing. rewrite update_label_length, update_label_elevation.
  unfold update_label. destruct l as [i |]; [| repeat split; reflexivity].
  destruct (nth_error (labels r) i); repeat split; reflexivity.
Qed.

Lemma kept_set_drawing (g : list (DrawCmd N)) (h : list (Ray N)) (r : Ruler N) :
  kept_but_drawing r (set_drawing g h r).
Proof. unfold kept_but_drawing. repeat split; reflexivity. Qed.

Lemma kept_first_loop (wps : list (PIXI.Point N)) (es : list (nat * PIXI.Point N)) :
  forall (st st' : Ruler N * list (Segment N) * list (ElevationSegment N)),
    forOf (segment_body wps) es st = Normal st' ->
    kept_but_drawing (fst (fst st)) (fst (fst st')).
Proof.
  induction es as [| [i dest] es IH]; intros st st' Hrun.
  - simpl in Hrun. injection Hrun as <-. apply kept_refl.
  - cbn [forOf] in Hrun.
    destruct (segment_body wps st (i, dest)) as [st1 |] eqn:Hbody; [| discriminate].
    cbn [bind] in Hrun. apply IH in Hrun.
    eapply kept_trans; [| exact Hrun].
    destruct st as [[r segs] esegs]. unfold segment_body in Hbody.
    destruct (nth_error wps i) as [origin |]; [| discriminate].
    cbn [bind] in Hbody.
    destruct (ltb _ _); injection Hbody as <-; cbn [fst].
    + apply kept_update_label.
    + apply kept_refl.
Qed.

Lemma kept_draw_segments (segs : list (Segment N)) :
  forall r : Ruler N, kept_but_drawing r (fold_left draw_segment segs r).
Proof.
  induction segs as [| s segs IH]; intros r.
  - apply kept_refl.
  - cbn [fold_left]. eapply kept_trans; [| apply IH].
    unfold draw_segment.
    eapply kept_trans; [apply kept_set_drawing |].
    eapply kept_trans; [apply kept_update_label |].
    apply kept_set_drawing.
Qed.

Lemma kept_draw_endpoints (wps : list (PIXI.Point N)) :
  forall r : Ruler N, kept_but_drawing r (fold_left draw_endpoint wps r).
Proof.
  induction wps as [| p wps IH]; intros r.
  - apply kept_refl.
  - cbn [fold_left]. eapply kept_trans; [| apply IH].
    unfold draw_endpoint. apply kept_set_drawing.
Qed.

(** The steps of a call that returns from the elevation path. *)
Lemma elevation_path_inversion
    (wrapped : Args -> World N -> Completion (list (Segment N) * World N))
    (args : Args) (w : World N) (segments : list (Segment N)) (w' : World N) :
  no_elevation_present (this w) = false ->
  elevationRulerMeasure wrapped args w = Normal (segments, w') ->
  exists destination gridSpaces r1 segs1 esegs distances td te,
    g_destination (globals w) = Some destination
    /\ g_gridSpaces (globals w) = Some gridSpaces
    /\ forOf (segment_body
                (waypoints (this w)
                 ++ [getCenter (PIXI.x destination) (PIXI.y destination)]))
             (entries
                (tl (waypoints (this w)
                     ++ [getCenter (PIXI.x destination) (PIXI.y destination)])))
             (set_destination (getCenter (PIXI.x destination) (PIXI.y destination))
                              (this w), [], [])
       = Normal (r1, segs1, esegs)
    /\ measureDistances esegs gridSpaces = Normal distances
    /\ forOf (distance_body r1
                (set_g_destination
                   (getCenter (PIXI.x destination) (PIXI.y destination)) (globals w)))
             (entries distances) (segs1, of_Z 0, of_Z 0)
       = Normal (segments, td, te)
    /\ w' = {| this :=
                 fold_left draw_endpoint
                   (waypoints (this w)
                    ++ [getCenter (PIXI.x destination) (PIXI.y destination)])
                   (fold_left draw_segment segments (set_drawing [] [] r1));
               globals :=
                 set_g_destination
                   (getCenter (PIXI.x destination) (PIXI.y destination)) (globals w) |}.
Proof.
  intros Hno Hrun. unfold elevationRulerMeasure in Hrun. rewrite Hno in Hrun.
  destruct (g_destination (globals w)) as [destination |] eqn:Hdest;
    [| discriminate].
  cbn [getGlobal bind] in Hrun.
  destruct (forOf (segment_body _) _ _) as [[[r1 segs1] esegs] |] eqn:Hloop;
    [| discriminate].
  cbn [bind] in Hrun. cbn [set_g_destination g_gridSpaces] in Hrun.
  destruct (g_gridSpaces (globals w)) as [gridSpaces |] eqn:Hgs; [| discriminate].
  cbn [getGlobal bind] in Hrun.
  destruct (measureDistances esegs gridSpaces) as [distances |] eqn:Hmeasure;
    [| discriminate].
  cbn [bind] in Hrun.
  destruct (forOf (distance_body _ _) (entries distances) _)
    as [[[segs2 td] te] |] eqn:Hloop2; [| discriminate].
  cbn [bind] in Hrun. injection Hrun as <- <-.
  exists destination, gridSpaces, r1, segs1, esegs, distances, td, te.
  repeat split; auto.
Qed.

(** X6.  A call that returns from the elevation path leaves the waypoints,
    the flag [active], the committed and pending increments and the number of
    labels as they were.  It stores the centre of the cursor's position in
    [this.destination] and in the global [destination], and changes no other
    global. *)
Theorem measure_keeps_session_state
    (wrapped : Args -> World N -> Completion (list (Segment N) * World N))
    (args : Args) (w : World N) (segments : list (Segment N)) (w' : World N) :
  no_elevation_present (this w) = false ->
  elevationRulerMeasure wrapped args w = Normal (segments, w') ->
  exists cursor,
    g_destination (globals w) = Some cursor
    /\ waypoints (this w') = waypoints (this w)
    /\ active (this w') = active (this w)
    /\ elevation_increments (this w') = elevation_increments (this w)
    /\ destination_elevation_increment (this w')
       = destination_elevation_increment (this w)
    /\ List.length (labels (this w')) = List.length (labels (this w))
    /\ destination (this w')
       = Some (getCenter (PIXI.x cursor) (PIXI.y cursor))
    /\ globals w'
       = set_g_destination (getCenter (PIXI.x cursor) (PIXI.y cursor))
                           (globals w).
Proof.
  intros Hno Hrun.
  destruct (elevation_path_inversion wrapped args w segments w' Hno Hrun)
    as (cursor & gridSpaces & r1 & segs1 & esegs & distances & td & te
        & Hd & Hg & Hloop & Hm & Hloop2 & ->).
  exists cursor. split; [exact Hd |].
  apply kept_first_loop in Hloop. cbn [fst] in Hloop.
  pose proof (kept_trans _ _ _ Hloop
                (kept_trans _ _ _ (kept_set_drawing [] [] r1)
                   (kept_trans _ _ _
                      (kept_draw_segments segments (set_drawing [] [] r1))
                      (kept_draw_endpoints
                         (waypoints (this w)
                          ++ [getCenter (PIXI.x cursor) (PIXI.y cursor)])
                         (fold_left draw_segment segments (set_drawing [] [] r1))))))
    as (K1 & K2 & K3 & K4 & K5 & K6).
  cbn [this globals]. repeat split; assumption.
Qed.

End MeasureFrame.

(** ** The distances of the returned segments *)

Lemma last_flag (i n : nat) :
  (Z.of_nat i =? Z.of_nat n - 1)%Z = Nat.eqb (S i) n.
Proof.
  destruct (Nat.eqb_spec (S i) n) as [Heq | Hne].
  - apply Z.eqb_eq. lia.
  - apply Z.eqb_neq. lia.
Qed.

Section Distances.
Context {N : Type} `{Number N} {host : Host N} {Args : Type}.

Lemma distance_body_inv (r : Ruler N) (g : Globals N) (segs : list (Segment N))
    (td te : N) (i : nat) (d : N) (out : list (Segment N) * N * N) :
  distance_body r g (segs, td, te) (i, d) = Normal out ->
  exists s text te',
    nth_error segs i = Some s
    /\ out = (set_nth i {| seg_ray := seg_ray s; seg_label := seg_label s;
                           seg_last := Some (Nat.eqb (S i) (List.length segs));
                           seg_distance := Some d; seg_text := Some text |} segs,
              add td d, te').
Proof.
  unfold distance_body. intros Hbody.
  destruct (nth_error segs i) as [s |]; [| discriminate].
  cbn [bind] in Hbody.
  destruct (g_elevation_increments g) as [incs |]; [| discriminate].
  cbn [getGlobal bind] in Hbody. rewrite last_flag in Hbody.
  destruct (loose_neq_0 (nth_error incs (i + 1))).
  - destruct (getSegmentElevationLabel g _ _ _) as [t |]; [| discriminate].
    cbn [bind] in Hbody. injection Hbody as <-. eauto.
  - injection Hbody as <-. eauto.
Qed.

(** The second loop, from index [k] on. *)
Lemma second_loop_distances (r : Ruler N) (g : Globals N) (ds : list N) :
  forall (k : nat) (segs : list (Segment N)) (td te : N)
         (out : list (Segment N) * N * N),
    forOf (distance_body r g) (combine (seq k (List.length ds)) ds) (segs, td, te)
    = Normal out ->
    List.length (fst (fst out)) = List.length segs
    /\ (ds = [] \/ k + List.length ds <= List.length segs)%nat
    /\ snd (fst out) = fold_left add ds td
    /\ (forall j d,
          nth_error ds j = Some d ->
          exists s',
            nth_error (fst (fst out)) (k + j) = Some s'
            /\ seg_distance s' = Some d
            /\ seg_last s' = Some (Nat.eqb (S (k + j)) (List.length segs)))
    /\ (forall i, (i < k \/ k + List.length ds <= i)%nat ->
                  nth_error (fst (fst out)) i = nth_error segs i).
Proof.
  induction ds as [| d ds IH]; intros k segs td te out Hrun.
  - simpl in Hrun. injection Hrun as <-. cbn [fst snd fold_left].
    repeat split; auto.
    intros j d Hj. destruct j; discriminate.
  - cbn [List.length seq combine forOf] in Hrun.
    destruct (distance_body r g (segs, td, te) (k, d)) as [st1 |] eqn:Hbody;
      [| discriminate].
    cbn [bind] in Hrun.
    apply distance_body_inv in Hbody as (s & text & te' & Hs & ->).
    apply IH in Hrun as (Hlen & Hbound & Htotal & Hset & Hrest).
    rewrite length_set_nth in Hlen, Hbound, Hset.
    assert (Hk : (k < List.length segs)%nat).
    { apply nth_error_Some. congruence. }
    split; [exact Hlen |].
    split.
    { right. cbn [List.length]. destruct Hbound as [-> | Hb]; simpl; lia. }
    split; [exact Htotal |].
    split.
    + intros [| j] d' Hj.
      * cbn [nth_error] in Hj. injection Hj as <-.
        rewrite Nat.add_0_r. rewrite Hrest by lia.
        eexists. split; [eapply nth_error_set_nth_eq; exact Hs |].
        cbn. auto.
      * cbn [nth_error] in Hj. destruct (Hset j d' Hj) as (s' & Hn & Hd & Hl).
        exists s'. rewrite Nat.add_succ_r. auto.
    + intros i Hi. cbn [List.length] in Hi.
      rewrite Hrest by lia. apply nth_error_set_nth_neq. lia.
Qed.

(** X7.  When a call returns from the elevation path, the host's
    [measureDistances] was given the elevation segments of the kept legs and
    returned no more distances than there are segments (one more would throw
    a [TypeError]).  The segment at each position carries the distance at that
    position, and its flag [last] is set exactly at the final position of
    the returned array. *)
Theorem returned_segments_carry_distances
    (wrapped : Args -> World N -> Completion (list (Segment N) * World N))
    (args : Args) (w : World N) (segments : list (Segment N)) (w' : World N) :
  no_elevation_present (this w) = false ->
  elevationRulerMeasure wrapped args w = Normal (segments, w') ->
  exists cursor gridSpaces distances,
    g_destination (globals w) = Some cursor
    /\ g_gridSpaces (globals w) = Some gridSpaces
    /\ measureDistances
         (map (leg_elevation_segment (this w))
              (kept_legs (this w)
                 (waypoints (this w) ++ [getCenter (PIXI.x cursor) (PIXI.y cursor)])))
         gridSpaces
       = Normal distances
    /\ List.length segments
       = List.length
           (kept_legs (this w)
              (waypoints (this w) ++ [getCenter (PIXI.x cursor) (PIXI.y cursor)]))
    /\ (List.length distances <= List.length segments)%nat
    /\ forall i d,
         nth_error distances i = Some d ->
         exists s,
           nth_error segments i = Some s
           /\ seg_distance s = Some d
           /\ seg_last s = Some (Nat.eqb (S i) (List.length segments)).
Proof.
  intros Hno Hrun.
  destruct (elevation_path_inversion wrapped args w segments w' Hno Hrun)
    as (cursor & gridSpaces & r1 & segs1 & esegs & distances & td & te
        & Hd & Hg & Hloop & Hm & Hloop2 & _).
  set (wps := (waypoints (this w) ++ [getCenter (PIXI.x cursor) (PIXI.y cursor)])%list)
    in *.
  destruct (first_loop wps (this w) (legs wps) (legs_origin wps)
              (set_destination (getCenter (PIXI.x cursor) (PIXI.y cursor)) (this w))
              [] [] eq_refl eq_refl)
    as (r1' & Hloop' & _).
  rewrite entries_legs, Hloop' in Hloop. cbn [app] in Hloop.
  injection Hloop as _ <- <-.
  fold (kept_legs (this w) wps) in Hm, Hloop2.
  unfold entries in Hloop2.
  apply second_loop_distances in Hloop2 as (Hlen & Hbound & _ & Hset & _).
  cbn [fst] in Hlen, Hset. rewrite length_map in Hlen, Hbound, Hset.
  exists cursor, gridSpaces, distances.
  split; [exact Hd |]. split; [exact Hg |]. split; [exact Hm |].
  split; [exact Hlen |].
  split.
  { rewrite Hlen. destruct Hbound as [-> | Hb]; simpl; lia. }
  intros i d Hi. destruct (Hset i d Hi) as (s & Hn & Hds & Hl).
  exists s. rewrite Hlen. auto.
Qed.

End Distances.

(** ** Legs without a committed increment *)

Section UncommittedLegs.
Context {N : Type} `{Number N} {host : Host N}.
Hypothesis nan_propagates : NaN_propagates N.

Lemma elevation_at_uncommitted (r : Ruler N) (i : nat) :
  (List.length (elevation_increments r) <= i)%nat -> elevation_at r i = NaN.
Proof.
  destruct nan_propagates as (Hmul & _).
  intros Hi. unfold elevation_at.
  apply nth_error_None in Hi. rewrite Hi, !Hmul. reflexivity.
Qed.

Lemma ProjectElevatedPoint_NaN (A B : PIXI.Point N) :
  ProjectElevatedPoint A B NaN = PIXI.mkPoint NaN NaN.
Proof.
  destruct nan_propagates as (Hmul & Hdiv & Hadd & _).
  unfold ProjectElevatedPoint. rewrite !Hmul, !Hdiv, !Hadd. reflexivity.
Qed.

Lemma legs_from_last (i : nat) (origin : PIXI.Point N) (rest : list (PIXI.Point N))
    (cursor : PIXI.Point N) :
  In (i + List.length rest, last rest origin, cursor)%nat
     (legs_from i origin (rest ++ [cursor])).
Proof.
  revert i origin. induction rest as [| p rest IH]; intros i origin.
  - simpl. left. rewrite Nat.add_0_r. reflexivity.
  - cbn [app legs_from List.length]. right.
    rewrite Nat.add_succ_r.
    replace (last (p :: rest) origin) with (last rest p)
      by (clear; revert p; induction rest as [| q rest IH]; intros p;
          [reflexivity | cbn [last]; destruct rest; [reflexivity | apply IH]]).
    apply (IH (S i) p).
Qed.

(** X9.  A leg whose destination has no committed increment is measured
    with a NaN elevation and is never suppressed, however short it is.  On a
    ruler with no more increments than waypoints this is the case of the leg
    from the last waypoint to the cursor: it is always among the kept legs,
    and the pending increment plays no part in it. *)
Theorem uncommitted_leg_is_never_suppressed (r : Ruler N) :
  (forall leg : Leg,
     (List.length (elevation_increments r) <= leg_index leg + 1)%nat ->
     leg_suppressed r leg = false)
  /\ (forall (first : PIXI.Point N) (rest : list (PIXI.Point N))
             (cursor : PIXI.Point N),
        waypoints r = first :: rest ->
        (List.length (elevation_increments r) <= List.length (waypoints r))%nat ->
        In (List.length rest, last rest first, cursor)
           (kept_legs r (waypoints r ++ [cursor]))).
Proof.
  assert (Hleg : forall leg : Leg,
             (List.length (elevation_increments r) <= leg_index leg + 1)%nat ->
             leg_suppressed r leg = false).
  { intros leg Hi. unfold leg_suppressed, leg_ray_elevated.
    rewrite (elevation_at_uncommitted r _ Hi), ProjectElevatedPoint_NaN.
    destruct nan_propagates as (_ & _ & _ & Hsub & Hhyp & Hlt).
    unfold newRay. cbn. rewrite !Hsub, Hhyp. apply Hlt. }
  split; [exact Hleg |].
  intros first rest cursor Hw Hlen.
  unfold kept_legs. apply filter_In. split.
  - rewrite Hw. cbn [app legs]. exact (legs_from_last 0 first rest cursor).
  - rewrite Hleg; [reflexivity |].
    unfold leg_index. cbn [fst]. rewrite Hw in Hlen. cbn [List.length] in Hlen. lia.
Qed.

End UncommittedLegs.

(** ** [groupBy] *)

Section GroupByFacts.
Context {T K : Type}.
Variable K_eqb : K -> K -> bool.
Hypothesis K_eqb_spec : forall a b : K, K_eqb a b = true <-> a = b.
Variable keyGetter : T -> K.

Lemma K_eqb_refl (a : K) : K_eqb a a = true.
Proof. apply K_eqb_spec. reflexivity. Qed.

Lemma K_eqb_neq (a b : K) : a <> b -> K_eqb a b = false.
Proof.
  intros Hne. destruct (K_eqb a b) eqn:E; [| reflexivity].
  apply K_eqb_spec in E. contradiction.
Qed.

Lemma Map_get_set_same {V : Type} (k : K) (v : V) (m : list (K * V)) :
  Map_get K_eqb k (Map_set K_eqb k v m) = Some v.
Proof.
  induction m as [| [k0 v0] m IH]; cbn.
  - rewrite K_eqb_refl. reflexivity.
  - destruct (K_eqb k k0) eqn:E; cbn; rewrite E; auto.
Qed.

Lemma Map_get_set_other {V : Type} (k k' : K) (v : V) (m : list (K * V)) :
  k <> k' -> Map_get K_eqb k' (Map_set K_eqb k v m) = Map_get K_eqb k' m.
Proof.
  intros Hne. induction m as [| [k0 v0] m IH]; cbn.
  - rewrite (K_eqb_neq k' k) by congruence. reflexivity.
  - destruct (K_eqb k k0) eqn:E; cbn.
    + apply K_eqb_spec in E. subst k0.
      rewrite (K_eqb_neq k' k) by congruence. reflexivity.
    + rewrite IH. reflexivity.
Qed.

Lemma Map_get_None {V : Type} (k : K) (m : list (K * V)) :
  Map_get K_eqb k m = None <-> ~ In k (map fst m).
Proof.
  induction m as [| [k0 v0] m IH]; cbn.
  - split; auto.
  - destruct (K_eqb k k0) eqn:E.
    + apply K_eqb_spec in E. subst. split; [discriminate | intros Hn; exfalso; auto].
    + rewrite IH. split.
      * intros Hn [Heq | Hin]; [| auto].
        subst. rewrite K_eqb_refl in E. discriminate.
      * intros Hn Hin. apply Hn. auto.
Qed.

Lemma Map_set_new {V : Type} (k : K) (v : V) (m : list (K * V)) :
  Map_get K_eqb k m = None -> Map_set K_eqb k v m = (m ++ [(k, v)])%list.
Proof.
  induction m as [| [k0 v0] m IH]; cbn; [reflexivity |].
  destruct (K_eqb k k0); [discriminate |].
  intros Hn. rewrite IH by exact Hn. reflexivity.
Qed.

Lemma Map_set_known_keys {V : Type} (k : K) (v v' : V) (m : list (K * V)) :
  Map_get K_eqb k m = Some v' -> map fst (Map_set K_eqb k v m) = map fst m.
Proof.
  induction m as [| [k0 v0] m IH]; cbn; [discriminate |].
  destruct (K_eqb k k0); cbn; [reflexivity |].
  intros Hn. rewrite IH by exact Hn. reflexivity.
Qed.

#[local] Abbreviation group_step :=
  (fun (map : list (K * list T)) (item : T) =>
     match Map_get K_eqb (keyGetter item) map with
     | None => Map_set K_eqb (keyGetter item) [item] map
     | Some collection => Map_set K_eqb (keyGetter item) (push collection item) map
     end).

Lemma groupBy_snoc (l : list T) (x : T) :
  groupBy K_eqb (l ++ [x]) keyGetter = group_step (groupBy K_eqb l keyGetter) x.
Proof. unfold groupBy. rewrite fold_left_app. reflexivity. Qed.

(** X10.  [groupBy] maps a key to the items of the list that have this key,
    in the order of the list, and has no entry for a key that no item has:
    no group is empty. *)
Theorem groupBy_get (l : list T) (k : K) :
  Map_get K_eqb k (groupBy K_eqb l keyGetter)
  = match filter (fun item => K_eqb (keyGetter item) k) l with
    | [] => None
    | _ :: _ => Some (filter (fun item => K_eqb (keyGetter item) k) l)
    end.
Proof.
  induction l as [| x l IH] using rev_ind.
  - reflexivity.
  - rewrite groupBy_snoc, filter_app. cbn [filter].
    destruct (K_eqb (keyGetter x) k) eqn:E.
    + apply K_eqb_spec in E. subst k.
      destruct (Map_get K_eqb (keyGetter x) (groupBy K_eqb l keyGetter))
        as [collection |] eqn:G; rewrite Map_get_set_same.
      * destruct (filter _ l) as [| y ys]; [discriminate |].
        injection IH as ->. unfold push. reflexivity.
      * destruct (filter _ l) as [| y ys]; [reflexivity | discriminate].
    + assert (Hne : keyGetter x <> k).
      { intros Heq. rewrite Heq, K_eqb_refl in E. discriminate. }
      rewrite app_nil_r.
      destruct (Map_get K_eqb (keyGetter x) (groupBy K_eqb l keyGetter));
        rewrite Map_get_set_other by exact Hne; exact IH.
Qed.

Lemma group_step_keys (m : list (K * list T)) (x : T) :
  map fst (group_step m x)
  = if existsb (K_eqb (keyGetter x)) (map fst m) then map fst m
    else (map fst m ++ [keyGetter x])%list.
Proof.
  cbv beta.
  destruct (Map_get K_eqb (keyGetter x) m) as [c |] eqn:G.
  - rewrite (Map_set_known_keys _ _ c _ G).
    destruct (existsb _ _) eqn:E; [reflexivity |].
    exfalso. assert (Hn : Map_get K_eqb (keyGetter x) m <> None) by congruence.
    apply Hn, Map_get_None. intros Hin.
    assert (Hex : existsb (K_eqb (keyGetter x)) (map fst m) = true).
    { apply existsb_exists. exists (keyGetter x). split; [exact Hin | apply K_eqb_refl]. }
    congruence.
  - rewrite (Map_set_new _ _ _ G), map_app. cbn.
    destruct (existsb _ _) eqn:E; [| reflexivity].
    exfalso. apply Map_get_None in G. apply G.
    apply existsb_exists in E as (k' & Hin & Heq).
    apply K_eqb_spec in Heq. subst. exact Hin.
Qed.

Lemma fold_group_step_prefix (l2 : list T) :
  forall m : list (K * list T),
    exists more, map fst (fold_left group_step l2 m) = (map fst m ++ more)%list.
Proof.
  induction l2 as [| x l2 IH]; intros m.
  - exists []. cbn. rewrite app_nil_r. reflexivity.
  - cbn [fold_left]. destruct (IH (group_step m x)) as (more & Hm).
    rewrite Hm, group_step_keys.
    destruct (existsb _ _).
    + exists more. reflexivity.
    + exists (keyGetter x :: more). rewrite <- app_assoc. reflexivity.
Qed.

(** X11.  The keys of the map that [groupBy] returns are distinct, they are
    the keys of the items of the list, and they come in the order in which
    the list first shows them: grouping a longer list only adds keys at
    the end. *)
Theorem groupBy_keys (l : list T) :
  NoDup (map fst (groupBy K_eqb l keyGetter))
  /\ (forall k, In k (map fst (groupBy K_eqb l keyGetter)) <-> In k (map keyGetter l))
  /\ (forall l2, exists more,
        map fst (groupBy K_eqb (l ++ l2) keyGetter)
        = (map fst (groupBy K_eqb l keyGetter) ++ more)%list).
Proof.
  split; [| split].
  - induction l as [| x l IH] using rev_ind; [constructor |].
    rewrite groupBy_snoc, group_step_keys.
    destruct (existsb _ _) eqn:E; [exact IH |].
    apply NoDup_app; [exact IH | repeat constructor; auto |].
    intros k Hin [<- | []].
    assert (Hex : existsb (K_eqb (keyGetter x))
                          (map fst (groupBy K_eqb l keyGetter)) = true).
    { apply existsb_exists. exists (keyGetter x). split; [exact Hin | apply K_eqb_refl]. }
    congruence.
  - induction l as [| x l IH] using rev_ind; intros k; [reflexivity |].
    rewrite groupBy_snoc, group_step_keys, map_app, in_app_iff. cbn [map In].
    destruct (existsb _ _) eqn:E.
    + rewrite IH. split; [auto |].
      intros [Hin | [<- | []]]; [exact Hin |].
      apply IH. apply existsb_exists in E as (k' & Hin & Heq).
      apply K_eqb_spec in Heq. subst. exact Hin.
    + rewrite in_app_iff, IH. cbn [In]. reflexivity.
  - intros l2. unfold groupBy. rewrite fold_left_app.
    apply fold_group_step_prefix.
Qed.

Lemma Map_set_push_permutation (k : K) (c : list T) (x : T) (m : list (K * list T)) :
  Map_get K_eqb k m = Some c ->
  Permutation (List.concat (map snd (Map_set K_eqb k (push c x) m)))
              (x :: List.concat (map snd m)).
Proof.
  induction m as [| [k0 v0] m IH]; cbn; [discriminate |].
  destruct (K_eqb k k0); cbn.
  - intros [= ->]. unfold push. rewrite <- app_assoc. cbn.
    symmetry. apply Permutation_middle.
  - intros G. rewrite (IH G). symmetry. apply Permutation_middle.
Qed.

(** X12.  [groupBy] loses no item and repeats none: its groups, one after
    the other, are a rearrangement of the list. *)
Theorem groupBy_partition (l : list T) :
  Permutation (List.concat (map snd (groupBy K_eqb l keyGetter))) l.
Proof.
  induction l as [| x l IH] using rev_ind; [constructor |].
  rewrite groupBy_snoc.
  destruct (Map_get K_eqb (keyGetter x) (groupBy K_eqb l keyGetter))
    as [c |] eqn:G.
  - rewrite (Map_set_push_permutation _ _ _ _ G), IH.
    apply Permutation_cons_append.
  - rewrite (Map_set_new _ _ _ G), map_app, List.concat_app.
    cbn [map snd List.concat]. rewrite app_nil_r.
    apply Permutation_app_tail. exact IH.
Qed.

End GroupByFacts.

(** ** [filterSplice] *)

Section FilterSpliceFacts.
Context {T : Type}.

Lemma insert_desc_smallest (a : nat) (l : list nat) :
  Forall (fun b => a < b)%nat l -> insert_desc a l = (l ++ [a])%list.
Proof.
  induction 1 as [| b l Hb Hl IH]; cbn [insert_desc app]; [reflexivity |].
  destruct (Nat.ltb_spec b a); [lia |]. rewrite IH. reflexivity.
Qed.

(** The indices and the elements that one pass of [filter] collects, from
    index [k] on. *)
Lemma collected (p : nat * T -> bool) (xs : list T) :
  forall (k : nat) (elems : list T) (indices : list nat),
    fold_left
      (fun (acc : list T * list nat) (e : nat * T) =>
         let '(elems, indices) := acc in
         let '(idx, elem) := e in
         if negb (p (idx, elem)) then (elems, indices)
         else (push elems elem, push indices idx))
      (combine (seq k (List.length xs)) xs) (elems, indices)
    = ((elems ++ map snd (filter p (combine (seq k (List.length xs)) xs)))%list,
       (indices ++ map fst (filter p (combine (seq k (List.length xs)) xs)))%list).
Proof.
  induction xs as [| x xs IH]; intros k elems indices.
  - cbn. rewrite !app_nil_r. reflexivity.
  - cbn [List.length seq combine fold_left filter].
    destruct (p (k, x)); cbn [negb].
    + rewrite IH. unfold push. cbn [map fst snd]. rewrite <- !app_assoc. reflexivity.
    + apply IH.
Qed.

Lemma collected_indices_from (p : nat * T -> bool) (xs : list T) (k : nat) :
  Forall (fun j => k <= j)%nat
         (map fst (filter p (combine (seq k (List.length xs)) xs))).
Proof.
  revert k. induction xs as [| x xs IH]; intros k; cbn; [constructor |].
  assert (Hrest : Forall (fun j => k <= j)%nat
                    (map fst (filter p (combine (seq (S k) (List.length xs)) xs)))).
  { eapply Forall_impl; [| apply IH]. cbn. intros; lia. }
  destruct (p (k, x)); [constructor; [cbn; lia | exact Hrest] | exact Hrest].
Qed.

Lemma sort_desc_collected (p : nat * T -> bool) (xs : list T) (k : nat) :
  sort_desc (map fst (filter p (combine (seq k (List.length xs)) xs)))
  = rev (map fst (filter p (combine (seq k (List.length xs)) xs))).
Proof.
  revert k. induction xs as [| x xs IH]; intros k; cbn; [reflexivity |].
  destruct (p (k, x)); [| apply IH].
  cbn [map fst sort_desc fold_right rev].
  fold (sort_desc (map fst (filter p (combine (seq (S k) (List.length xs)) xs)))).
  rewrite IH. apply insert_desc_smallest.
  apply Forall_rev. eapply Forall_impl; [| apply collected_indices_from].
  cbn. intros; lia.
Qed.

Lemma splice_behind_head (x : T) (js : list nat) (k : nat) :
  Forall (fun j => S k <= j)%nat js ->
  forall xs : list T,
    fold_left (fun arr j => splice1 (j - k) arr) js (x :: xs)
    = x :: fold_left (fun arr j => splice1 (j - S k) arr) js xs.
Proof.
  induction 1 as [| j js Hj Hjs IH]; intros xs; cbn [fold_left]; [reflexivity |].
  replace (j - k)%nat with (S (j - S k)) by lia.
  cbn [splice1]. apply IH.
Qed.

Lemma spliced (p : nat * T -> bool) (xs : list T) :
  forall k : nat,
    fold_left (fun arr j => splice1 (j - k) arr)
              (rev (map fst (filter p (combine (seq k (List.length xs)) xs)))) xs
    = map snd (filter (fun e => negb (p e)) (combine (seq k (List.length xs)) xs)).
Proof.
  induction xs as [| x xs IH]; intros k.
  - cbn. reflexivity.
  - cbn [List.length seq combine filter].
    assert (Hrest :
              fold_left (fun arr j => splice1 (j - k) arr)
                (rev (map fst (filter p (combine (seq (S k) (List.length xs)) xs))))
                (x :: xs)
              = x :: map snd (filter (fun e => negb (p e))
                                     (combine (seq (S k) (List.length xs)) xs))).
    { rewrite splice_behind_head; [rewrite IH; reflexivity |].
      apply Forall_rev, collected_indices_from. }
    destruct (p (k, x)); cbn [negb map fst snd rev].
    + rewrite fold_left_app, Hrest. cbn [fold_left].
      rewrite Nat.sub_diag. reflexivity.
    + exact Hrest.
Qed.

Lemma fold_left_pointwise {A B : Type} (f g : A -> B -> A) (l : list B) :
  (forall a b, f a b = g a b) -> forall a, fold_left f l a = fold_left g l a.
Proof.
  intros Hfg. induction l as [| b l IH]; intros a; cbn; [reflexivity |].
  rewrite Hfg. apply IH.
Qed.

Lemma filterSplice_entries (arr : list T) (filterFn : T -> nat -> list T -> bool) :
  filterSplice arr filterFn
  = (map snd (filter (fun e => filterFn (snd e) (fst e) arr) (entries arr)),
     map snd (filter (fun e => negb (filterFn (snd e) (fst e) arr)) (entries arr))).
Proof.
  unfold filterSplice, entries.
  pose proof (collected (fun e => filterFn (snd e) (fst e) arr) arr 0 [] []) as Hc.
  cbv beta in Hc. cbn [fst snd app] in Hc. rewrite Hc. clear Hc.
  rewrite sort_desc_collected.
  rewrite (fold_left_pointwise _ (fun arr0 j => splice1 (j - 0) arr0))
    by (intros a j; rewrite Nat.sub_0_r; reflexivity).
  rewrite spliced. reflexivity.
Qed.

Lemma filter_entries (g : T -> bool) (xs : list T) (k : nat) :
  map snd (filter (fun e : nat * T => g (snd e)) (combine (seq k (List.length xs)) xs))
  = filter g xs.
Proof.
  revert k. induction xs as [| x xs IH]; intros k; cbn; [reflexivity |].
  destruct (g x); cbn; rewrite IH; reflexivity.
Qed.

Lemma entries_values (xs : list T) (k : nat) :
  map snd (combine (seq k (List.length xs)) xs) = xs.
Proof.
  revert k. induction xs as [| x xs IH]; intros k; cbn; [reflexivity |].
  rewrite IH. reflexivity.
Qed.

Lemma filter_both_permutation {A : Type} (p : A -> bool) (l : list A) :
  Permutation (filter p l ++ filter (fun a => negb (p a)) l) l.
Proof.
  induction l as [| a l IH]; cbn; [constructor |].
  destruct (p a); cbn.
  - constructor. exact IH.
  - rewrite <- Permutation_middle. constructor. exact IH.
Qed.

(** X13.  [filterSplice] returns the elements that pass the test, in their
    order, and leaves in the array the elements that fail it, in their
    order: sorting the indices and splicing them one by one does what two
    filters do.  With a test that looks at the element only, the result is
    [arr.filter(test)] and the array becomes the elements that fail it. *)
Theorem filterSplice_partitions (arr : list T) :
  (forall filterFn : T -> nat -> list T -> bool,
     filterSplice arr filterFn
     = (map snd (filter (fun e => filterFn (snd e) (fst e) arr) (entries arr)),
        map snd (filter (fun e => negb (filterFn (snd e) (fst e) arr)) (entries arr))))
  /\ (forall test : T -> bool,
        filterSplice arr (fun elem _ _ => test elem)
        = (filter test arr, filter (fun elem => negb (test elem)) arr)).
Proof.
  split.
  - exact (filterSplice_entries arr).
  - intros test. rewrite filterSplice_entries. unfold entries. cbn [fst snd].
    rewrite (filter_entries test arr 0).
    rewrite (filter_entries (fun elem => negb (test elem)) arr 0). reflexivity.
Qed.

(** X14.  [filterSplice] loses no element and repeats none: the returned
    elements followed by the elements left in the array are a rearrangement
    of the array as it was. *)
Theorem filterSplice_keeps_all (arr : list T) (filterFn : T -> nat -> list T -> bool) :
  Permutation (fst (filterSplice arr filterFn) ++ snd (filterSplice arr filterFn)) arr.
Proof.
  rewrite filterSplice_entries. cbn [fst snd]. rewrite <- map_app.
  rewrite (filter_both_permutation
             (fun e : nat * T => filterFn (snd e) (fst e) arr) (entries arr)).
  unfold entries. rewrite entries_values. reflexivity.
Qed.

End FilterSpliceFacts.

(** ** [keyForValue] *)

Section KeyForValueFacts.
Context {V : Type}.
Variable V_eqb : V -> V -> bool.
Hypothesis V_eqb_spec : forall a b : V, V_eqb a b = true <-> a = b.

Lemma Object_get_key (object : list (string * V)) (key : string) (v : V) :
  Object_get object key = Some v -> In key (Object_keys object).
Proof.
  induction object as [| [k v0] object IH]; cbn; [discriminate |].
  destruct (String.eqb_spec key k) as [-> | Hne]; [auto |].
  intros Hg. right. apply IH, Hg.
Qed.

Lemma find_first {A : Type} (p : A -> bool) (l : list A) (a : A) :
  find p l = Some a ->
  exists l1 l2, l = (l1 ++ a :: l2)%list /\ p a = true
                /\ forall b, In b l1 -> p b = false.
Proof.
  induction l as [| b l IH]; cbn; [discriminate |].
  destruct (p b) eqn:E.
  - intros [= ->]. exists [], l. repeat split; [exact E | intros b []].
  - intros Hf. destruct (IH Hf) as (l1 & l2 & -> & Hp & Hl1).
    exists (b :: l1), l2. repeat split; [exact Hp |].
    intros c [<- | Hin]; [exact E | apply Hl1, Hin].
Qed.

Lemma keyForValue_some (object : list (string * V)) (value : V) (key : string) :
  keyForValue V_eqb object value = Some key ->
  Object_get object key = Some value
  /\ exists before after,
       Object_keys object = (before ++ key :: after)%list
       /\ forall k, In k before -> Object_get object k <> Some value.
Proof.
  intros Hf. unfold keyForValue in Hf.
  apply find_first in Hf as (before & after & Hkeys & Hp & Hbefore).
  split.
  - destruct (Object_get object key) as [v |]; [| discriminate].
    apply V_eqb_spec in Hp. congruence.
  - exists before, after. split; [exact Hkeys |].
    intros k Hin Hg. specialize (Hbefore k Hin). rewrite Hg in Hbefore.
    rewrite (proj2 (V_eqb_spec value value) eq_refl) in Hbefore. discriminate.
Qed.

Lemma keyForValue_none (object : list (string * V)) (value : V) :
  keyForValue V_eqb object value = None
  <-> forall key, Object_get object key <> Some value.
Proof.
  unfold keyForValue. split.
  - intros Hnone key Hg.
    pose proof (find_none _ _ Hnone key (Object_get_key object key value Hg)) as Hp.
    cbv beta in Hp. rewrite Hg in Hp.
    rewrite (proj2 (V_eqb_spec value value) eq_refl) in Hp. discriminate.
  - intros Hall.
    destruct (find _ (Object_keys object)) as [key |] eqn:Hf; [| reflexivity].
    apply find_some in Hf as [_ Hp].
    destruct (Object_get object key) as [v |] eqn:Hg; [| discriminate].
    apply V_eqb_spec in Hp. subst v. exfalso. exact (Hall key Hg).
Qed.

(** X15.  When [keyForValue] returns a key, the object has the value under
    that key and under none of the keys that [Object.keys] lists before
    it; it returns nothing exactly when no key of the object has the
    value. *)
Theorem keyForValue_finds_first (object : list (string * V)) (value : V) :
  (forall key,
     keyForValue V_eqb object value = Some key ->
     Object_get object key = Some value
     /\ exists before after,
          Object_keys object = (before ++ key :: after)%list
          /\ forall k, In k before -> Object_get object k <> Some value)
  /\ (keyForValue V_eqb object value = None
      <-> forall key, Object_get object key <> Some value).
Proof.
  split; [exact (keyForValue_some object value) | exact (keyForValue_none object value)].
Qed.

(** X16.  On an object whose values are all different, [keyForValue] is the
    inverse of the lookup: the value read under a key gives back the key. *)
Theorem keyForValue_of_lookup (object : list (string * V)) (key : string) (value : V) :
  (forall k1 k2 v,
     Object_get object k1 = Some v -> Object_get object k2 = Some v -> k1 = k2) ->
  Object_get object key = Some value ->
  keyForValue V_eqb object value = Some key.
Proof.
  intros Hinj Hg.
  destruct (keyForValue V_eqb object value) as [key' |] eqn:Hf.
  - apply keyForValue_some in Hf as [Hg' _].
    f_equal. exact (Hinj _ _ _ Hg' Hg).
  - pose proof (proj1 (keyForValue_none object value) Hf) as Hall.
    exfalso. exact (Hall key Hg).
Qed.

End KeyForValueFacts.

(** ** More on the projection in exact arithmetic *)

Section ExactMore.
Local Open Scope R_scope.

(** X19.  The projected point of two distinct points lies at distance
    [|height|] from [B]. *)
Theorem projected_point_at_height_from_B (ax ay bx by_ h : R) :
  (ax, ay) <> (bx, by_) ->
  ray_distance (newRay (rpt bx by_)
                       (ProjectElevatedPoint (rpt ax ay) (rpt bx by_) (Fin h)))
  = Fin (Rabs h).
Proof.
  intros Hne. rewrite (@ProjectElevatedPoint_distinct ax ay bx by_ h Hne).
  pose proof (@length_nonzero ax ay bx by_ Hne) as Hd.
  pose proof (length_square (bx - ax) (by_ - ay)) as Hs.
  set (d := sqrt ((by_ - ay) * (by_ - ay) + (bx - ax) * (bx - ax))) in *.
  unfold newRay, rpt. cbn. f_equal.
  rewrite <- sqrt_Rsqr_abs. f_equal. unfold Rsqr.
  replace ((h * (by_ - ay) / d + bx + - bx) * (h * (by_ - ay) / d + bx + - bx)
           + (h * (bx - ax) / d + by_ + - by_) * (h * (bx - ax) / d + by_ + - by_))
    with (h * h + h * h / (d * d)
                  * ((by_ - ay) * (by_ - ay) + (bx - ax) * (bx - ax) - d * d))
    by (field; exact Hd).
  rewrite Hs. ring.
Qed.

(** X20.  The projected points for a height and for the opposite height
    have [B] as their middle: the sign of the height turns the projected
    point half a turn about [B]. *)
Theorem opposite_heights_are_symmetric_about_B (ax ay bx by_ h : R) :
  (ax, ay) <> (bx, by_) ->
  add (PIXI.x (ProjectElevatedPoint (rpt ax ay) (rpt bx by_) (Fin h)))
      (PIXI.x (ProjectElevatedPoint (rpt ax ay) (rpt bx by_) (Fin (- h))))
  = Fin (2 * bx)
  /\ add (PIXI.y (ProjectElevatedPoint (rpt ax ay) (rpt bx by_) (Fin h)))
         (PIXI.y (ProjectElevatedPoint (rpt ax ay) (rpt bx by_) (Fin (- h))))
     = Fin (2 * by_).
Proof.
  intros Hne. rewrite !(@ProjectElevatedPoint_distinct ax ay bx by_ _ Hne).
  pose proof (@length_nonzero ax ay bx by_ Hne) as Hd.
  unfold rpt. cbn. split; f_equal; field; exact Hd.
Qed.

(** X21.  The projection does not depend on where the origin of the
    coordinates is: moving [A] and [B] by the same vector moves the
    projected point by that vector (and a NaN stays a NaN). *)
Theorem projection_commutes_with_translation (ax ay bx by_ h tx ty : R) :
  ProjectElevatedPoint (rpt (ax + tx) (ay + ty)) (rpt (bx + tx) (by_ + ty)) (Fin h)
  = PIXI.mkPoint
      (add (PIXI.x (ProjectElevatedPoint (rpt ax ay) (rpt bx by_) (Fin h))) (Fin tx))
      (add (PIXI.y (ProjectElevatedPoint (rpt ax ay) (rpt bx by_) (Fin h))) (Fin ty)).
Proof.
  destruct (Req_dec_T ax bx) as [Hx | Hx], (Req_dec_T ay by_) as [Hy | Hy].
  - subst. rewrite !ProjectElevatedPoint_coincident. reflexivity.
  - assert (Hne : (ax, ay) <> (bx, by_)) by congruence.
    assert (Hne' : (ax + tx, ay + ty) <> (bx + tx, by_ + ty)).
    { intros Heq. injection Heq as _ Heq. apply Hy. lra. }
    rewrite (@ProjectElevatedPoint_distinct _ _ _ _ h Hne),
            (@ProjectElevatedPoint_distinct _ _ _ _ h Hne').
    replace (by_ + ty - (ay + ty)) with (by_ - ay) by ring.
    replace (bx + tx - (ax + tx)) with (bx - ax) by ring.
    unfold rpt. cbn. f_equal; f_equal; ring.
  - assert (Hne : (ax, ay) <> (bx, by_)) by congruence.
    assert (Hne' : (ax + tx, ay + ty) <> (bx + tx, by_ + ty)).
    { intros Heq. injection Heq as Heq _. apply Hx. lra. }
    rewrite (@ProjectElevatedPoint_distinct _ _ _ _ h Hne),
            (@ProjectElevatedPoint_distinct _ _ _ _ h Hne').
    replace (by_ + ty - (ay + ty)) with (by_ - ay) by ring.
    replace (bx + tx - (ax + tx)) with (bx - ax) by ring.
    unfold rpt. cbn. f_equal; f_equal; ring.
  - assert (Hne : (ax, ay) <> (bx, by_)) by congruence.
    assert (Hne' : (ax + tx, ay + ty) <> (bx + tx, by_ + ty)).
    { intros Heq. injection Heq as Heq _. apply Hx. lra. }
    rewrite (@ProjectElevatedPoint_distinct _ _ _ _ h Hne),
            (@ProjectElevatedPoint_distinct _ _ _ _ h Hne').
    replace (by_ + ty - (ay + ty)) with (by_ - ay) by ring.
    replace (bx + tx - (ax + tx)) with (bx - ax) by ring.
    unfold rpt. cbn. f_equal; f_equal; ring.
Qed.

Lemma origin_3_4_distinct : (0, 0) <> (3, 4).
Proof. intros Heq. injection Heq as Hx _. lra. Qed.

Lemma projected_point_at_height_from_B_witness :
  ray_distance (newRay (rpt 3 4)
                       (ProjectElevatedPoint (rpt 0 0) (rpt 3 4) (Fin 5)))
  = Fin (Rabs 5).
Proof. exact (projected_point_at_height_from_B 0 0 3 4 5 origin_3_4_distinct). Defined.

Lemma opposite_heights_are_symmetric_about_B_witness :
  add (PIXI.x (ProjectElevatedPoint (rpt 0 0) (rpt 3 4) (Fin 5)))
      (PIXI.x (ProjectElevatedPoint (rpt 0 0) (rpt 3 4) (Fin (- 5))))
  = Fin (2 * 3)
  /\ add (PIXI.y (ProjectElevatedPoint (rpt 0 0) (rpt 3 4) (Fin 5)))
         (PIXI.y (ProjectElevatedPoint (rpt 0 0) (rpt 3 4) (Fin (- 5))))
     = Fin (2 * 4).
Proof.
  exact (opposite_heights_are_symmetric_about_B 0 0 3 4 5 origin_3_4_distinct).
Defined.

Lemma projected_distance_is_slant_iff_witness :
  ray_distance (newRay (rpt 0 0) (ProjectElevatedPoint (rpt 0 0) (rpt 3 4) (Fin 5)))
  = slant_distance (rpt 0 0) (rpt 3 4) (Fin 5)
  <-> 5 * (3 - 0) * (4 - 0) = 0.
Proof. exact (@projected_distance_is_slant_iff 0 0 3 4 5 origin_3_4_distinct). Defined.

Lemma projected_collinear_iff_witness :
  cross (rpt 0 0) (rpt 3 4) (ProjectElevatedPoint (rpt 0 0) (rpt 3 4) (Fin 5)) = Fin 0
  <-> 5 * ((3 - 0) * (3 - 0) - (4 - 0) * (4 - 0)) = 0.
Proof. exact (@projected_collinear_iff 0 0 3 4 5 origin_3_4_distinct). Defined.

Lemma projected_mirror_iff_witness :
  mirror (rpt 0 0) (rpt 3 4) (ProjectElevatedPoint (rpt 0 0) (rpt 3 4) (Fin 5))
  = ProjectElevatedPoint (rpt 0 0) (rpt 3 4) (Fin (- 5))
  <-> 5 * (3 - 0) * (4 - 0) = 0.
Proof. exact (@projected_mirror_iff 0 0 3 4 5 origin_3_4_distinct). Defined.

Lemma ProjectElevatedPoint_zero_height_witness :
  ProjectElevatedPoint (rpt 0 0) (rpt 3 4) (Fin 0) = rpt 3 4.
Proof. exact (@ProjectElevatedPoint_zero_height 0 0 3 4 origin_3_4_distinct). Defined.

End ExactMore.

(** ** NaN on the two number types *)

Lemma float_is_nan (a : float64) :
  FloatOps.Prim2SF a = SpecFloat.S754_nan -> a = PrimFloat.nan.
Proof.
  intros Ha. rewrite <- (FloatAxioms.SF2Prim_Prim2SF a), Ha. reflexivity.
Qed.

Lemma NaN_propagates_float64 : NaN_propagates float64.
Proof.
  unfold NaN_propagates. cbn.
  split; [| split; [| split; [| split; [| split]]]].
  - intros a. apply float_is_nan. rewrite FloatAxioms.mul_spec. reflexivity.
  - intros a. apply float_is_nan. rewrite FloatAxioms.div_spec. reflexivity.
  - intros a. apply float_is_nan. rewrite FloatAxioms.add_spec. reflexivity.
  - intros a. apply float_is_nan. rewrite FloatAxioms.sub_spec. reflexivity.
  - vm_compute. reflexivity.
  - intros a. rewrite FloatAxioms.ltb_spec. reflexivity.
Qed.

Lemma NaN_propagates_xreal : NaN_propagates xreal.
Proof.
  unfold NaN_propagates. cbn.
  repeat split; try (intros a; destruct a; reflexivity).
Qed.

(** ** Instances *)

Lemma Ruler_clear_keeps : keeps_elevation (@Ruler_clear float64).
Proof. intros a r. split; reflexivity. Qed.

Lemma Ruler_addWaypoint_keeps : keeps_elevation (@Ruler_addWaypoint float64 _).
Proof. intros a r. split; reflexivity. Qed.

Lemma Ruler_removeWaypoint_keeps : keeps_elevation (@Ruler_removeWaypoint float64).
Proof. intros a r. split; reflexivity. Qed.

Lemma session_measure_by_parity_witness :
  no_elevation_present
    (run Ruler_addWaypoint Ruler_removeWaypoint [AddWaypoint (pt 0 0)]
         (elevationRulerClear Ruler_clear (pt 0 0) (@idle_ruler float64)))
  = false.
Proof.
  rewrite (proj1 (session_measure_by_parity (host := gridless)
                    Ruler_clear Ruler_addWaypoint Ruler_removeWaypoint
                    Ruler_clear_keeps Ruler_addWaypoint_keeps Ruler_removeWaypoint_keeps
                    (fun a r => eq_refl)
                    (fun a r => length_push (waypoints r) a)
                    (fun a r => length_pop (waypoints r))
                    (pt 0 0) idle_ruler [AddWaypoint (pt 0 0)])).
  reflexivity.
Defined.

Lemma add_then_remove_restores_increments_witness :
  elevation_increments
    (step Ruler_addWaypoint Ruler_removeWaypoint
          (step Ruler_addWaypoint Ruler_removeWaypoint
                (changeElevation 2 (origin_ruler (pt 0 0))) (AddWaypoint (pt 3 4)))
          (RemoveWaypoint (pt 3 4)))
  = [0%Z]
  /\ destination_elevation_increment
       (step Ruler_addWaypoint Ruler_removeWaypoint
             (step Ruler_addWaypoint Ruler_removeWaypoint
                   (changeElevation 2 (origin_ruler (pt 0 0))) (AddWaypoint (pt 3 4)))
             (RemoveWaypoint (pt 3 4)))
     = 0%Z.
Proof.
  exact (add_then_remove_restores_increments
           Ruler_addWaypoint Ruler_removeWaypoint
           Ruler_addWaypoint_keeps Ruler_removeWaypoint_keeps
           (pt 3 4) (pt 3 4) (changeElevation 2 (origin_ruler (pt 0 0)))).
Defined.

Lemma add_waypoint_keeps_total_witness :
  total_increment
    (step Ruler_addWaypoint Ruler_removeWaypoint
          (changeElevation 2 (origin_ruler (pt 0 0))) (AddWaypoint (pt 3 4)))
  = 2%Z.
Proof.
  rewrite (add_waypoint_keeps_total Ruler_addWaypoint Ruler_removeWaypoint
             Ruler_addWaypoint_keeps (pt 3 4)
             (changeElevation 2 (origin_ruler (pt 0 0)))).
  reflexivity.
Defined.

Lemma short_leg_world_elevation_path :
  no_elevation_present (this short_leg_world) = false.
Proof. vm_compute. reflexivity. Qed.

Lemma short_leg_world_returns :
  elevationRulerMeasure (host := gridless) Ruler_measure tt short_leg_world
  = Normal
      (fst (returned (elevationRulerMeasure (host := gridless)
                        Ruler_measure tt short_leg_world)
                     ([], short_leg_world)),
       snd (returned (elevationRulerMeasure (host := gridless)
                        Ruler_measure tt short_leg_world)
                     ([], short_leg_world))).
Proof. vm_compute. reflexivity. Qed.

Lemma measure_keeps_session_state_witness :
  exists cursor,
    g_destination (globals short_leg_world) = Some cursor
    /\ waypoints
         (this (snd (returned (elevationRulerMeasure (host := gridless)
                                 Ruler_measure tt short_leg_world)
                              ([], short_leg_world))))
       = [pt 0 0; pt 3 4].
Proof.
  destruct (measure_keeps_session_state (host := gridless) Ruler_measure tt
              short_leg_world _ _
              short_leg_world_elevation_path short_leg_world_returns)
    as (cursor & Hc & Hw & _).
  exists cursor. split; [exact Hc | exact Hw].
Defined.

Lemma returned_segments_carry_distances_witness :
  exists distances : list float64,
    (List.length distances
     <= List.length
          (fst (returned (elevationRulerMeasure (host := gridless)
                            Ruler_measure tt short_leg_world)
                         ([], short_leg_world))))%nat
    /\ List.length
         (fst (returned (elevationRulerMeasure (host := gridless)
                           Ruler_measure tt short_leg_world)
                        ([], short_leg_world)))
       = 1%nat.
Proof.
  destruct (returned_segments_carry_distances (host := gridless) Ruler_measure tt
              short_leg_world _ _
              short_leg_world_elevation_path short_leg_world_returns)
    as (cursor & gridSpaces & distances & _ & _ & _ & _ & Hle & _).
  exists distances. split; [exact Hle | vm_compute; reflexivity].
Defined.

Lemma uncommitted_leg_is_never_suppressed_witness :
  leg_suppressed (host := gridless) (origin_ruler (pt 0 0)) (0%nat, pt 0 0, pt 0 0)
  = false
  /\ In (0%nat, pt 0 0, pt 0 0)
        (kept_legs (host := gridless) (origin_ruler (pt 0 0))
                   (waypoints (origin_ruler (pt 0 0)) ++ [pt 0 0])).
Proof.
  destruct (uncommitted_leg_is_never_suppressed (host := gridless)
              NaN_propagates_float64 (origin_ruler (pt 0 0))) as [Hleg Hcursor].
  split.
  - apply Hleg. cbn. lia.
  - exact (Hcursor (pt 0 0) [] (pt 0 0) eq_refl (le_n 1)).
Defined.

Lemma groupBy_get_witness :
  Map_get Nat.eqb 1%nat (groupBy Nat.eqb [1; 2; 3; 4; 5]%nat (fun n => n mod 2)%nat)
  = Some [1; 3; 5]%nat.
Proof.
  exact (groupBy_get Nat.eqb Nat.eqb_eq (fun n => n mod 2)%nat [1; 2; 3; 4; 5]%nat 1%nat).
Defined.

Lemma groupBy_keys_witness :
  NoDup (map fst (groupBy Nat.eqb [1; 2; 3; 4; 5]%nat (fun n => n mod 2)%nat)).
Proof.
  exact (proj1 (groupBy_keys Nat.eqb Nat.eqb_eq (fun n => n mod 2)%nat
                  [1; 2; 3; 4; 5]%nat)).
Defined.

Lemma keyForValue_finds_first_witness :
  keyForValue Nat.eqb [("a", 1); ("b", 2); ("c", 2)]%string%nat 2%nat = Some "b"%string
  /\ Object_get [("a", 1); ("b", 2); ("c", 2)]%string%nat "b"%string = Some 2%nat.
Proof.
  split; [reflexivity |].
  exact (proj1 (proj1 (keyForValue_finds_first Nat.eqb Nat.eqb_eq
                         [("a", 1); ("b", 2); ("c", 2)]%string%nat 2%nat)
                      "b"%string eq_refl)).
Defined.

Lemma unique_values_example :
  forall (k1 k2 : string) (v : nat),
    Object_get [("a", 1); ("b", 2); ("c", 3)]%string%nat k1 = Some v ->
    Object_get [("a", 1); ("b", 2); ("c", 3)]%string%nat k2 = Some v -> k1 = k2.
Proof.
  intros k1 k2 v. cbn.
  destruct (String.eqb_spec k1 "a"), (String.eqb_spec k1 "b"), (String.eqb_spec k1 "c"),
           (String.eqb_spec k2 "a"), (String.eqb_spec k2 "b"), (String.eqb_spec k2 "c");
    congruence.
Qed.

Lemma keyForValue_of_lookup_witness :
  keyForValue Nat.eqb [("a", 1); ("b", 2); ("c", 3)]%string%nat 3%nat = Some "c"%string.
Proof.
  exact (keyForValue_of_lookup Nat.eqb Nat.eqb_eq
           [("a", 1); ("b", 2); ("c", 3)]%string%nat "c"%string 3%nat
           unique_values_example eq_refl).
Defined.

(** ** The fields on the prototype *)

(** X22.  A ruler that was never cleared has no array of its own: its
    add-waypoint pushes on the prototype's array, and every other ruler that
    was never cleared (or only had its pending increment changed) then reads
    the pushed increment too. *)
Theorem uncleared_rulers_share_increments
    (p : Proto.Prototype) (o other : Proto.Own) :
  Proto.own_elevation_increments o = None ->
  Proto.own_elevation_increments other = None ->
  Proto.elevation_increments (fst (Proto.elevationRulerAddWaypoint p o)) other
  = (Proto.elevation_increments p other ++ [Proto.destination_elevation_increment o])%list
  /\ Proto.own_elevation_increments (snd (Proto.elevationRulerAddWaypoint p o)) = None.
Proof.
  intros Ho Hother.
  unfold Proto.elevationRulerAddWaypoint, Proto.mutate_array, Proto.elevation_increments.
  rewrite Ho, Hother. cbn. rewrite Ho. split; reflexivity.
Qed.

Lemma uncleared_rulers_share_increments_witness :
  Proto.elevation_increments
    (fst (Proto.elevationRulerAddWaypoint
            {| Proto.proto_elevation_increments := [] |}
            {| Proto.own_elevation_increments := None;
               Proto.own_destination_elevation_increment := Some 2%Z |}))
    {| Proto.own_elevation_increments := None;
       Proto.own_destination_elevation_increment := None |}
  = [2%Z].
Proof.
  exact (proj1 (uncleared_rulers_share_increments
                  {| Proto.proto_elevation_increments := [] |}
                  {| Proto.own_elevation_increments := None;
                     Proto.own_destination_elevation_increment := Some 2%Z |}
                  {| Proto.own_elevation_increments := None;
                     Proto.own_destination_elevation_increment := None |}
                  eq_refl eq_refl)).
Defined.

Lemma agrees_apply {N : Type} (r : Ruler N) (st : Proto.Prototype * Proto.Own)
    (op : Proto.Op) :
  agrees r st ->
  agrees (apply_own r op) (Proto.apply st op)
  /\ fst (Proto.apply st op) = fst st.
Proof.
  destruct st as [p o]. unfold agrees. cbn [fst snd]. intros [Hi Hd].
  destruct op; cbn [apply_own Proto.apply fst snd].
  - cbn. auto.
  - unfold Proto.elevationRulerAddWaypoint, Proto.mutate_array,
      Proto.destination_elevation_increment. rewrite Hi, Hd. cbn. auto.
  - unfold Proto.elevationRulerRemoveWaypoint, Proto.mutate_array.
    rewrite Hi. cbn. auto.
  - unfold Proto.changeElevation, Proto.destination_elevation_increment,
      Proto.assign_destination, changeElevation, set_elevation.
    rewrite Hd.
    cbn [fst snd Proto.own_elevation_increments
         Proto.own_destination_elevation_increment
         elevation_increments destination_elevation_increment].
    auto.
Qed.

(** X23.  Once a ruler has been cleared its two fields are its own: whatever
    is then added, removed, changed or cleared on it, the prototype's array
    is left as it was, and the fields the ruler reads are those of the record
    with plain fields on which the same operations are done. *)
Theorem cleared_ruler_owns_its_fields {N : Type}
    (r : Ruler N) (p : Proto.Prototype) (o : Proto.Own) (ops : list Proto.Op) :
  fst (fold_left Proto.apply ops (Proto.elevationRulerClear p o)) = p
  /\ Proto.elevation_increments
       (fst (fold_left Proto.apply ops (Proto.elevationRulerClear p o)))
       (snd (fold_left Proto.apply ops (Proto.elevationRulerClear p o)))
     = elevation_increments (fold_left apply_own ops (apply_own r Proto.Clear))
  /\ Proto.destination_elevation_increment
       (snd (fold_left Proto.apply ops (Proto.elevationRulerClear p o)))
     = destination_elevation_increment (fold_left apply_own ops (apply_own r Proto.Clear)).
Proof.
  assert (Hgen : forall (r0 : Ruler N) (st : Proto.Prototype * Proto.Own),
             agrees r0 st ->
             fst (fold_left Proto.apply ops st) = fst st
             /\ agrees (fold_left apply_own ops r0) (fold_left Proto.apply ops st)).
  { induction ops as [| op ops IH]; intros r0 st Hag; cbn [fold_left].
    - auto.
    - destruct (agrees_apply r0 st op Hag) as [Hag' Hp].
      destruct (IH _ _ Hag') as [Hp' Hag'']. split; [congruence | exact Hag'']. }
  destruct (Hgen (apply_own r Proto.Clear) (Proto.elevationRulerClear p o))
    as [Hp [Hi Hd]].
  { split; reflexivity. }
  split; [exact Hp |].
  unfold Proto.elevation_increments, Proto.destination_elevation_increment.
  rewrite Hi, Hd. split; reflexivity.
Qed.

(** ** Segments shorter than the threshold *)

(** C5.  On the path of [mixed_legs_ruler], with unit grid cells: the leg of
    length 0 and the leg to (6,6) that climbs 5 have slant lengths 0 and
    sqrt 97 < 10, the leg to (12,12) that descends 8 has slant length
    sqrt 136 > 10, and the leg to the cursor has length 3 (sqrt 10 with the
    pending increment).  The first loop keeps the first two legs and the leg
    to the cursor, with their labels visible, and suppresses the third; on a
    page without the global [destination] the call itself throws before the
    loop. *)
Theorem short_segments_are_kept :
  elevation_at (host := gridless) mixed_legs_ruler 1 = float_of_Z 0
  /\ elevation_at (host := gridless) mixed_legs_ruler 2 = float_of_Z 5
  /\ elevation_at (host := gridless) mixed_legs_ruler 3 = float_of_Z (-8)
  /\ slant_distance (pt 0 0) (pt 0 0) (float_of_Z 0) = float_of_Z 0
  /\ PrimFloat.ltb (slant_distance (pt 0 0) (pt 6 6) (float_of_Z 5)) (float_of_Z 10)
     = true
  /\ PrimFloat.ltb (slant_distance (pt 6 6) (pt 12 12) (float_of_Z (-8))) (float_of_Z 10)
     = false
  /\ PrimFloat.ltb (slant_distance (pt 12 12) (pt 12 15) (float_of_Z 1)) (float_of_Z 10)
     = true
  /\ forOf (segment_body (host := gridless) mixed_legs_path)
           (entries (tl mixed_legs_path)) (mixed_legs_ruler, [], [])
     = Normal (returned
                 (forOf (segment_body (host := gridless) mixed_legs_path)
                        (entries (tl mixed_legs_path)) (mixed_legs_ruler, [], []))
                 (mixed_legs_ruler, [], []))
  /\ map (fun s => (ray_A (seg_ray s), ray_B (seg_ray s)))
         (snd (fst (returned
                      (forOf (segment_body (host := gridless) mixed_legs_path)
                             (entries (tl mixed_legs_path)) (mixed_legs_ruler, [], []))
                      (mixed_legs_ruler, [], []))))
     = [(pt 0 0, pt 0 0); (pt 0 0, pt 6 6); (pt 12 12, pt 12 15)]
  /\ map (@label_visible float64)
         (labels (fst (fst (returned
                              (forOf (segment_body (host := gridless) mixed_legs_path)
                                     (entries (tl mixed_legs_path))
                                     (mixed_legs_ruler, [], []))
                              (mixed_legs_ruler, [], [])))))
     = [true; true; false; true]
  /\ elevationRulerMeasure (host := gridless) Ruler_measure tt
       {| this := mixed_legs_ruler; globals := no_globals |}
     = Throw (ReferenceError "destination").
Proof. repeat split; vm_compute; reflexivity. Qed.
